(** * Hamming single-error-correcting code: [src/dev/hammingcode.py]

    A shallow embedding of the four Python functions of the module
    ([num_paritybits], [parity], [encode], [decode]), the properties
    the specification states about them, and further properties read
    off the code.

    Python integers are unbounded, so they are modelled by [Z]; lists of
    integers by [list Z].  Whatever can raise in Python (an unbound local,
    an index out of range, a negative shift count) raises in the model as
    well, through the [result] monad. *)

From stdpp Require Import base numbers list gmap.

Local Open Scope Z_scope.

(** ** The fragment of Python the module uses *)

Module Py.

(** The exceptions the code of the module can meet. *)
Inductive exn : Type :=
| UnboundLocalError   (* a local variable read before any assignment *)
| IndexError          (* list index out of range *)
| ValueError.         (* negative shift count *)

(** Outcome of running a piece of code: a value, a raised exception, or
    [OutOfFuel] when a [while] loop was cut by the model before its
    condition became false. *)
Inductive result (A : Type) : Type :=
| Ok (a : A)
| Raise (e : exn)
| OutOfFuel.
Global Arguments Ok {A} a.
Global Arguments Raise {A} e.
Global Arguments OutOfFuel {A}.

Global Instance result_ret : MRet result := λ A a, Ok a.
Global Instance result_bind : MBind result := λ A B f m,
  match m with
  | Ok a => f a
  | Raise e => Raise e
  | OutOfFuel => OutOfFuel
  end.

Global Instance exn_eq_dec : EqDecision exn.
Proof. solve_decision. Defined.

(** [len(l)] *)
Definition len (l : list Z) : Z := Z.of_nat (length l).

(** A local variable slot: [None] while the name is still unbound. *)
Definition load (slot : option Z) : result Z :=
  match slot with
  | Some v => Ok v
  | None => Raise UnboundLocalError
  end.

(** [a << b]: Python raises [ValueError] on a negative shift count. *)
Definition lshift (a b : Z) : result Z :=
  if b <? 0 then Raise ValueError else Ok (Z.shiftl a b).

(** Truth value of an integer used as a condition. *)
Definition truthy (x : Z) : bool := negb (x =? 0).

(** Subscript normalisation: a negative index counts from the end; what
    is still outside [0, len) raises [IndexError]. *)
Definition index (l : list Z) (i : Z) : result nat :=
  let i' := if i <? 0 then i + len l else i in
  if (i' <? 0) || (len l <=? i') then Raise IndexError
  else Ok (Z.to_nat i').

(** [l[i]] *)
Definition getitem (l : list Z) (i : Z) : result Z :=
  j ← index l i;
  match l !! j with
  | Some x => Ok x
  | None => Raise IndexError
  end.

(** [l[i] = v], returning the updated list. *)
Definition setitem (l : list Z) (i v : Z) : result (list Z) :=
  j ← index l i; Ok (<[j := v]> l).

(** [range(n)]: empty when [n <= 0]. *)
Definition range (n : Z) : list Z := seqZ 0 n.

(** [[x] * n]: empty when [n <= 0]. *)
Definition repeat_list (x n : Z) : list Z := replicate (Z.to_nat n) x.

(** [enumerate(l)], counting from [i]. *)
Fixpoint enumerate_from (i : Z) (l : list Z) : list (Z * Z) :=
  match l with
  | [] => []
  | x :: l' => (i, x) :: enumerate_from (i + 1) l'
  end.
Definition enumerate (l : list Z) : list (Z * Z) := enumerate_from 0 l.

(** [sum(xs)]: left to right, starting from 0. *)
Definition sum (xs : list Z) : Z := fold_left Z.add xs 0.

(** [for x in xs: s = body(s, x)], stopping at the first exception. *)
Fixpoint for_each {St X : Type} (body : St → X → result St)
    (xs : list X) (s : St) : result St :=
  match xs with
  | [] => Ok s
  | x :: xs' => s' ← body s x; for_each body xs' s'
  end.

End Py.

Import Py.

(** ** [num_paritybits]

<<
def num_paritybits(k: int) -> int:
    while (1 << r) < k + r + 1:
        r += 1
    return r
>>
    [r] is assigned in the body ([r += 1]), which makes it a local of the
    function; nothing binds it before the loop tests its condition.  The
    loop is therefore modelled over a slot [option Z] for [r]. *)

Fixpoint num_paritybits_while (fuel : nat) (k : Z) (r : option Z) : result Z :=
  match fuel with
  | O => OutOfFuel
  | S fuel' =>
      r1 ← load r;
      m ← lshift 1 r1;
      r2 ← load r;
      if m <? k + r2 + 1
      then r3 ← load r; num_paritybits_while fuel' k (Some (r3 + 1))
      else load r
  end.

(** Fuel that lets the loop run to its end from [r = 0] (lemma
    [num_paritybits_while_fuel] below: more fuel changes nothing). *)
Definition num_paritybits_fuel (k : Z) : nat := S (S (Z.to_nat k)).

Definition num_paritybits (k : Z) : result Z :=
  num_paritybits_while (num_paritybits_fuel k) k None.

(** ** [parity]

<<
def parity(codeword: list[int], p: int) -> int:
    mask = 1 << p
    xor_sum = sum(bit
                  for i, bit in enumerate(codeword)
                  if i & mask) % 2
    return xor_sum
>> *)

Definition covered (mask : Z) (ib : Z * Z) : bool := truthy (Z.land ib.1 mask).

Definition parity (codeword : list Z) (p : Z) : result Z :=
  mask ← lshift 1 p;
  let xor_sum := sum (snd <$> List.filter (covered mask) (enumerate codeword)) `mod` 2 in
  Ok xor_sum.

(** ** [encode]

<<
def encode(data: list[int]) -> list[int]:
    k = len(data)
    r = num_paritybits(k)
    n = k + r
    codeword = [0] * n
    j = 0
    for i in range(n):
        if (i & (i + 1)) != 0:
            codeword[i] = data[j]
            j += 1
    for p in range(r):
        codeword[(1 << p) - 1] = parity(codeword, p)
    return codeword
>> *)

(** [(i & (i + 1)) != 0]: the 1-based position [i + 1] is not a power of
    two, so slot [i] carries data. *)
Definition is_data_slot (i : Z) : bool := negb (Z.land i (i + 1) =? 0).

(** Body of the first loop, on the pair ([codeword], [j]). *)
Definition encode_place (data : list Z) (st : list Z * Z) (i : Z)
    : result (list Z * Z) :=
  let '(codeword, j) := st in
  if is_data_slot i then
    d ← getitem data j;
    codeword' ← setitem codeword i d;
    Ok (codeword', j + 1)
  else Ok (codeword, j).

(** Body of the second loop: the right-hand side is evaluated first, the
    subscript after it. *)
Definition encode_set_parity (codeword : list Z) (p : Z) : result (list Z) :=
  x ← parity codeword p;
  m ← lshift 1 p;
  setitem codeword (m - 1) x.

(** What [encode] does once [r] is known (from [n = k + r] on). *)
Definition encode_body (data : list Z) (r : Z) : result (list Z) :=
  let k := len data in
  let n := k + r in
  let codeword := repeat_list 0 n in
  st ← for_each (encode_place data) (range n) (codeword, 0);
  for_each encode_set_parity (range r) st.1.

Definition encode (data : list Z) : result (list Z) :=
  r ← num_paritybits (len data);
  encode_body data r.

(** ** [decode]

<<
def decode(codeword: list[int]) -> tuple[list[int], bool]:
    codeword = codeword.copy()
    n = len(codeword)
    r = 0
    while (1 << r) < n + 1:
        r += 1
    syndrome = 0
    for p in range(r):
        expected = parity(codeword, p)
        received = codeword[(1 << p) - 1]
        if expected != received:
            syndrome |= 1 << p
    clean = syndrome == 0
    if syndrome and syndrome <= n:
        codeword[syndrome - 1] ^= 1
        clean = False
    data = [bit for i, bit in enumerate(codeword) if (i & (i + 1)) != 0]
    return data, clean
>> *)

Fixpoint decode_r_while (fuel : nat) (n r : Z) : result Z :=
  match fuel with
  | O => OutOfFuel
  | S fuel' =>
      m ← lshift 1 r;
      if m <? n + 1 then decode_r_while fuel' n (r + 1) else Ok r
  end.

(** The loop leaves with [r <= n], after at most [n] increments (lemma
    [decode_r_while_total]). *)
Definition decode_r (codeword : list Z) : result Z :=
  decode_r_while (S (length codeword)) (len codeword) 0.

(** Body of the [for p in range(r)] loop, on [syndrome]. *)
Definition decode_check (codeword : list Z) (syndrome p : Z) : result Z :=
  expected ← parity codeword p;
  m ← lshift 1 p;
  received ← getitem codeword (m - 1);
  if negb (expected =? received) then
    m' ← lshift 1 p; Ok (Z.lor syndrome m')
  else Ok syndrome.

Definition decode_syndrome (codeword : list Z) : result Z :=
  r ← decode_r codeword;
  for_each (decode_check codeword) (range r) 0.

(** [l[i] ^= v]: read, xor, write back. *)
Definition ixor_item (l : list Z) (i v : Z) : result (list Z) :=
  old ← getitem l i;
  setitem l i (Z.lxor old v).

(** The correction step: the working codeword and [clean] after it. *)
Definition decode_correct (codeword : list Z) (syndrome : Z)
    : result (list Z * bool) :=
  let n := len codeword in
  let clean := syndrome =? 0 in
  if truthy syndrome && (syndrome <=? n) then
    codeword' ← ixor_item codeword (syndrome - 1) 1;
    Ok (codeword', false)
  else Ok (codeword, clean).

(** The final comprehension. *)
Definition extract (codeword : list Z) : list Z :=
  snd <$> List.filter (λ ib, is_data_slot ib.1) (enumerate codeword).

(** [decode] on list values: [codeword.copy()] is the identity on a
    value, the store is made explicit in [decode_heap] below. *)
Definition decode (codeword : list Z) : result (list Z * bool) :=
  syndrome ← decode_syndrome codeword;
  st ← decode_correct codeword syndrome;
  Ok (extract st.1, st.2).

(** Flipping bit [i] of a codeword, as a noisy channel would. *)
Definition flip (c : list Z) (i : Z) : result (list Z) := ixor_item c i 1.

(** ** [decode] over a store of list objects

    Python lists are mutable objects reached through references.  To tell
    the caller's list from [decode]'s working copy, the store maps
    locations to list contents; [decode_heap] receives the location of
    the argument and returns the location of the fresh data list. *)

Abbreviation heap := (gmap positive (list Z)).

(** A new list object holding [v]. *)
Definition alloc (h : heap) (v : list Z) : positive * heap :=
  let l := fresh (dom h) in (l, <[l := v]> h).
Global Arguments alloc : simpl never.

Definition decode_heap (arg : positive) (h : heap)
    : result (positive * bool * heap) :=
  (* codeword = codeword.copy(): the name now points to a new object *)
  let '(codeword, h) := alloc h (h !!! arg) in
  let n := len (h !!! codeword) in
  r ← decode_r (h !!! codeword);
  syndrome ← for_each (decode_check (h !!! codeword)) (range r) 0;
  let clean := syndrome =? 0 in
  st ← (if truthy syndrome && (syndrome <=? n) then
          (* codeword[syndrome - 1] ^= 1 writes into the object *)
          cw' ← ixor_item (h !!! codeword) (syndrome - 1) 1;
          Ok (<[codeword := cw']> h, false)
        else Ok (h, clean));
  let '(data, h') := alloc st.1 (extract (st.1 !!! codeword)) in
  Ok (data, st.2, h').

(** ** What the specification asks of the parity count *)

(** [r] is the least non-negative integer with [2^r >= k + r + 1]. *)
Definition is_min_paritybits (k r : Z) : Prop :=
  0 ≤ r ∧ k + r + 1 ≤ 2 ^ r ∧ ∀ r', 0 ≤ r' < r → 2 ^ r' < k + r' + 1.

(** Evaluation on small inputs. *)
Example decode_7bit_clean :
  decode [1;0;1;0;0;1;1] = Ok ([1;0;1;1], true).
Proof. vm_compute. reflexivity. Qed.

(** * Properties *)

(** ** Python primitives *)

Section primitives.
Implicit Types (l : list Z) (i p : Z).

Lemma lshift_1_nonneg p : 0 ≤ p → lshift 1 p = Ok (2 ^ p).
Proof.
  intros Hp. unfold lshift.
  destruct (Z.ltb_spec p 0); [lia|]. by rewrite Z.shiftl_1_l.
Qed.

Lemma lshift_neg p : p < 0 → lshift 1 p = Raise ValueError.
Proof. intros Hp. unfold lshift. destruct (Z.ltb_spec p 0); [done|lia]. Qed.

Lemma index_in_range l i :
  0 ≤ i < len l → index l i = Ok (Z.to_nat i) ∧ (Z.to_nat i < length l)%nat.
Proof.
  unfold index, len. intros Hi.
  destruct (Z.ltb_spec i 0); [lia|].
  destruct (Z.ltb_spec i 0); [lia|].
  destruct (Z.leb_spec (Z.of_nat (length l)) i); [lia|].
  split; [done|lia].
Qed.

Lemma getitem_in_range l i :
  0 ≤ i < len l → ∃ x, getitem l i = Ok x ∧ l !! Z.to_nat i = Some x.
Proof.
  intros Hi. destruct (index_in_range l i Hi) as [Hidx Hlt].
  unfold getitem. rewrite Hidx. simpl.
  destruct (lookup_lt_is_Some_2 l _ Hlt) as [x Hx].
  exists x. by rewrite Hx.
Qed.

Lemma setitem_in_range l i v :
  0 ≤ i < len l → setitem l i v = Ok (<[Z.to_nat i := v]> l).
Proof.
  intros Hi. destruct (index_in_range l i Hi) as [Hidx _].
  unfold setitem. by rewrite Hidx.
Qed.

Lemma ixor_item_in_range l i v :
  0 ≤ i < len l →
  ∃ x, l !! Z.to_nat i = Some x ∧
       ixor_item l i v = Ok (<[Z.to_nat i := Z.lxor x v]> l).
Proof.
  intros Hi. destruct (getitem_in_range l i Hi) as (x & Hget & Hx).
  exists x. split; [done|].
  unfold ixor_item. rewrite Hget. simpl. by apply setitem_in_range.
Qed.

Lemma elem_of_range n p : p ∈ range n ↔ 0 ≤ p < n.
Proof. unfold range. rewrite elem_of_seqZ. lia. Qed.

(** The mask [2^p] and the 0-based slot [2^p - 1] share no bit. *)
Lemma land_own_slot p : 0 ≤ p → Z.land (2 ^ p - 1) (2 ^ p) = 0.
Proof.
  intros Hp. rewrite Z.land_comm.
  replace (2 ^ p - 1) with (Z.ones p) by (rewrite Z.ones_equiv; lia).
  rewrite Z.land_ones by done. apply Z_mod_same_full.
Qed.

Lemma pow2_ge_double r : 1 ≤ r → 2 * r ≤ 2 ^ r.
Proof.
  intros Hr. replace r with (Z.succ (r - 1)) at 2 by lia.
  rewrite Z.pow_succ_r by lia.
  pose proof (Z.pow_gt_lin_r 2 (r - 1)). lia.
Qed.
End primitives.

(** ** The parity count *)

Section parity_count.
Implicit Types (k r : Z) (fuel : nat).

(** The call reads [r] before anything is stored in it. *)
Lemma num_paritybits_unbound k : num_paritybits k = Raise UnboundLocalError.
Proof. reflexivity. Qed.

(** One turn of the loop once [r] holds a non-negative value. *)
Lemma num_paritybits_while_step fuel k r :
  0 ≤ r →
  num_paritybits_while (S fuel) k (Some r) =
    if 2 ^ r <? k + r + 1
    then num_paritybits_while fuel k (Some (r + 1))
    else Ok r.
Proof.
  intros Hr. simpl. rewrite lshift_1_nonneg by done. simpl.
  by destruct (2 ^ r <? k + r + 1).
Qed.

(** From a bound [r], the loop stops at the least [r' >= r] passing
    Hamming's rule, provided no smaller value passes it. *)
Lemma num_paritybits_while_min fuel k r :
  0 ≤ r → 0 ≤ k →
  k + 1 - r < Z.of_nat fuel →
  (∀ r', 0 ≤ r' < r → 2 ^ r' < k + r' + 1) →
  ∃ r1, num_paritybits_while fuel k (Some r) = Ok r1 ∧
        r ≤ r1 ∧ is_min_paritybits k r1.
Proof.
  revert r. induction fuel as [|fuel IH]; intros r Hr Hk Hfuel Hbelow.
  - pose proof (pow2_ge_double (r - 1)). pose proof (Hbelow (r - 1)). lia.
  - rewrite num_paritybits_while_step by done.
    destruct (Z.ltb_spec (2 ^ r) (k + r + 1)) as [Hlt|Hge].
    + assert (r ≤ k) as Hrk.
      { destruct (decide (r = 0)) as [->|]; [lia|].
        pose proof (pow2_ge_double r). lia. }
      destruct (IH (r + 1)) as (r1 & Hrun & Hle & Hmin); [lia|done|lia| |].
      { intros r' Hr'. destruct (decide (r' = r)) as [->|]; [done|].
        apply Hbelow. lia. }
      exists r1. split_and!; [done|lia|done].
    + exists r. split_and!; [done|lia|]. by split_and!.
Qed.

(** More fuel does not change what the loop returns. *)
Lemma num_paritybits_while_fuel fuel fuel' k (slot : option Z) r1 :
  num_paritybits_while fuel k slot = Ok r1 → (fuel ≤ fuel')%nat →
  num_paritybits_while fuel' k slot = Ok r1.
Proof.
  revert fuel' slot. induction fuel as [|fuel IH]; intros fuel' slot Hrun Hle.
  - done.
  - destruct fuel' as [|fuel']; [lia|].
    simpl in *. destruct slot as [r|]; [|done]. simpl in *.
    destruct (lshift 1 r) as [m| |]; [|done..]. simpl in *.
    destruct (m <? k + r + 1); [|done].
    apply IH; [done|lia].
Qed.

(** C3, counterexample: at [k = 0] the call does not return [1]; the
    claim there asks for a result that is both the least [r] passing
    Hamming's rule and equal to [1]. *)
Lemma num_paritybits_zero_counterexample :
  ¬ ∃ r, num_paritybits 0 = Ok r ∧ is_min_paritybits 0 r ∧ r = 1.
Proof. intros (r & Hrun & _). rewrite num_paritybits_unbound in Hrun. done. Qed.

(** C3, as amended: for every [k >= 0] the loop of [num_paritybits],
    entered with [r = 0], ends and returns the least [r >= 0] such
    that [2^r >= k + r + 1]; for [k = 0] that is [0]. *)
Theorem num_paritybits_loop_minimal k :
  0 ≤ k →
  ∃ r, num_paritybits_while (num_paritybits_fuel k) k (Some 0) = Ok r ∧
       is_min_paritybits k r ∧ (k = 0 → r = 0).
Proof.
  intros Hk.
  destruct (num_paritybits_while_min (num_paritybits_fuel k) k 0)
    as (r & Hrun & Hle & Hmin); [done|done|unfold num_paritybits_fuel; lia|lia|].
  exists r. split_and!; [done..|].
  intros ->. destruct Hmin as (_ & _ & Hbelow).
  destruct (decide (r = 0)) as [|Hne]; [done|].
  specialize (Hbelow 0). simpl in Hbelow. lia.
Qed.

Lemma num_paritybits_loop_minimal_witness :
  0 ≤ 4 ∧
  ∃ r, num_paritybits_while (num_paritybits_fuel 4) 4 (Some 0) = Ok r ∧
       is_min_paritybits 4 r ∧ (4 = 0 → r = 0).
Proof. split; [lia | apply (num_paritybits_loop_minimal 4); lia]. Defined.

(** The trace in the source comment: four data bits stop at [r = 3]. *)
Example num_paritybits_loop_4 :
  num_paritybits_while (num_paritybits_fuel 4) 4 (Some 0) = Ok 3.
Proof. reflexivity. Qed.

Example num_paritybits_loop_0 :
  num_paritybits_while (num_paritybits_fuel 0) 0 (Some 0) = Ok 0.
Proof. reflexivity. Qed.
End parity_count.

(** ** The encoder *)

Section encoder.
Implicit Types (data c : list Z) (i : Z).

(** [encode] calls [num_paritybits] before anything else, so every call
    ends in the same exception. *)
Lemma encode_unbound data : encode data = Raise UnboundLocalError.
Proof. reflexivity. Qed.

(** C1: the round trip, evaluated on the code: [decode] is never
    reached, [encode] raises on every data sequence. *)
Theorem roundtrip_raises data :
  (c ← encode data; decode c) = Raise UnboundLocalError.
Proof. by rewrite encode_unbound. Qed.

(** C2: decoding a codeword with bit [i] flipped, evaluated on the
    code: no codeword is produced to flip. *)
Theorem single_flip_raises data i :
  (c ← encode data; c' ← flip c i; decode c') = Raise UnboundLocalError.
Proof. by rewrite encode_unbound. Qed.

(** C4: [encode] returns no codeword on which the parity checks could
    be evaluated. *)
Theorem encode_returns_no_codeword data c : encode data ≠ Ok c.
Proof. by rewrite encode_unbound. Qed.

(** Past the unbound [r]: the body of [encode] run with the parity
    count the loop yields from [r = 0] (3 for four data bits). *)
Example encode_body_1011 :
  encode_body [1;0;1;1] 3 = Ok [1;0;1;0;0;1;1].
Proof. vm_compute. reflexivity. Qed.

Example encode_body_1000 :
  encode_body [1;0;0;0] 3 = Ok [0;1;1;0;0;0;0].
Proof. vm_compute. reflexivity. Qed.

(** On that codeword check 0 recomputes to 1 while slot 0 stores 0 ... *)
Example encode_body_1000_check0 :
  parity [0;1;1;0;0;0;0] 0 = Ok 1 ∧ getitem [0;1;1;0;0;0;0] 0 = Ok 0.
Proof. split; vm_compute; reflexivity. Qed.

(** ... so the decoder reports it as not clean, *)
Example encode_body_1000_roundtrip :
  (c ← encode_body [1;0;0;0] 3; decode c) = Ok ([1;0;0;0], false).
Proof. vm_compute. reflexivity. Qed.

(** and a flip of slot 4 of the codeword of [1;0;1;1] is not undone. *)
Example encode_body_1011_flip4 :
  (c ← encode_body [1;0;1;1] 3; c' ← flip c 4; decode c')
  = Ok ([1;1;1;1], false).
Proof. vm_compute. reflexivity. Qed.

Example encode_body_empty :
  encode_body [] 0 = Ok [] ∧ encode_body [] 1 = Ok [0].
Proof. split; vm_compute; reflexivity. Qed.
End encoder.

(** ** The parity evaluator *)

Section evaluator.
Implicit Types (cw l : list Z) (p mask : Z).

Lemma parity_nonneg_index cw p : 0 ≤ p → ∃ x, parity cw p = Ok x ∧ 0 ≤ x < 2.
Proof.
  intros Hp. unfold parity. rewrite lshift_1_nonneg by done. simpl.
  eexists. split; [done|]. by apply Z.mod_pos_bound.
Qed.

Lemma index_nonneg_inv l i j : 0 ≤ i → index l i = Ok j → j = Z.to_nat i.
Proof.
  unfold index. intros Hi. destruct (Z.ltb_spec i 0); [lia|].
  destruct (_ || _); [done|]. by intros [= <-].
Qed.

(** Overwriting a slot the mask does not select leaves the selected
    (index, bit) pairs as they were. *)
Lemma filter_covered_insert mask i0 j v l :
  Z.land (i0 + Z.of_nat j) mask = 0 →
  List.filter (covered mask) (enumerate_from i0 (<[j:=v]> l))
  = List.filter (covered mask) (enumerate_from i0 l).
Proof.
  revert i0 j. induction l as [|x l IH]; intros i0 j Hland; [done|].
  destruct j as [|j]; simpl.
  - rewrite Z.add_0_r in Hland.
    assert (∀ y, covered mask (i0, y) = false) as Hout.
    { intros y. unfold covered. simpl. by rewrite Hland. }
    by rewrite !Hout.
  - rewrite IH; [done|]. rewrite <-Hland. f_equal. lia.
Qed.

(** On the codeword of the source comment, flipping the bit at index
    [2^0 - 1 = 0] does not change [parity(codeword, 0)]. *)
Lemma parity_own_slot_counterexample :
  ¬ ∀ c', flip [0;1;1;0;0;1;1] (2 ^ 0 - 1) = Ok c' →
          parity c' 0 ≠ parity [0;1;1;0;0;1;1] 0.
Proof. intros H. by apply (H [1;1;1;0;0;1;1]). Qed.

(** C5, evaluated on the code: the claim asks that flipping the bit
    stored at index [2^p - 1] change [parity(codeword, p)].  On the code
    it never does, for any codeword and any parity index [p >= 0]: the
    mask test [i & (1 << p)] runs on the 0-based index of [enumerate],
    and [2^p - 1] has bit [p] clear.  The source comment lists the
    positions kept for [p = 0] as 1, 3, 5, 7, counted from 1, the parity
    bit's own position 1 among them. *)
Theorem parity_blind_to_own_slot cw p c' :
  0 ≤ p → flip cw (2 ^ p - 1) = Ok c' → parity c' p = parity cw p.
Proof.
  intros Hp Hflip.
  assert (0 ≤ 2 ^ p - 1) as Hidx by (pose proof (Z.pow_pos_nonneg 2 p); lia).
  unfold flip, ixor_item, getitem, setitem in Hflip.
  destruct (index cw (2 ^ p - 1)) as [j| |] eqn:Hj; [|done..].
  apply index_nonneg_inv in Hj as ->; [|done]. simpl in Hflip.
  destruct (cw !! _) as [x|]; [|done]. simpl in Hflip.
  injection Hflip as <-.
  unfold parity. rewrite lshift_1_nonneg by done. simpl.
  unfold enumerate. rewrite filter_covered_insert; [done|].
  rewrite Z2Nat.id by done. by apply land_own_slot.
Qed.

Lemma parity_blind_to_own_slot_witness :
  0 ≤ 0 ∧ flip [0;1;1;0;0;1;1] (2 ^ 0 - 1) = Ok [1;1;1;0;0;1;1] ∧
  parity [1;1;1;0;0;1;1] 0 = parity [0;1;1;0;0;1;1] 0.
Proof.
  split; [lia|]. split; [reflexivity|].
  apply (parity_blind_to_own_slot [0;1;1;0;0;1;1] 0 [1;1;1;0;0;1;1]);
    [lia | reflexivity].
Defined.

(** The example of the source comment: for [p = 0] the bits kept sit at
    0-based indices 1, 3 and 5. *)
Example parity_comment_example :
  List.filter (covered 1) (enumerate [0;1;1;0;0;1;1]) = [(1,1); (3,0); (5,1)]
  ∧ parity [0;1;1;0;0;1;1] 0 = Ok 0.
Proof. split; reflexivity. Qed.
End evaluator.

(** ** The decoder *)

Section decoder.
Implicit Types (cw : list Z) (n r p s : Z) (fuel : nat).

(** The loop on [r] ends, with every [p < r] such that [2^p <= n]. *)
Lemma decode_r_while_total fuel n r :
  0 ≤ r → (0 < fuel)%nat → n - r < Z.of_nat fuel →
  (∀ p, 0 ≤ p < r → 2 ^ p < n + 1) →
  ∃ r', decode_r_while fuel n r = Ok r' ∧ r ≤ r' ∧
        (∀ p, 0 ≤ p < r' → 2 ^ p < n + 1) ∧ n + 1 ≤ 2 ^ r'.
Proof.
  revert r. induction fuel as [|fuel IH]; intros r Hr Hpos Hfuel Hbelow; [lia|].
  simpl. rewrite lshift_1_nonneg by done. simpl.
  destruct (Z.ltb_spec (2 ^ r) (n + 1)) as [Hlt|Hge].
  - pose proof (Z.pow_gt_lin_r 2 r).
    destruct (IH (r + 1)) as (r' & Hrun & Hle & Hall & Hstop); [lia..| |].
    { intros p Hp. destruct (decide (p = r)) as [->|]; [done|].
      apply Hbelow. lia. }
    exists r'. split_and!; [done|lia|done..].
  - exists r. split_and!; [done|lia|done..].
Qed.

Lemma decode_r_total cw :
  ∃ r, decode_r cw = Ok r ∧ 0 ≤ r ∧
       (∀ p, 0 ≤ p < r → 2 ^ p < len cw + 1) ∧ len cw + 1 ≤ 2 ^ r.
Proof.
  destruct (decode_r_while_total (S (length cw)) (len cw) 0)
    as (r & Hrun & Hle & Hall & Hstop); [lia|lia|unfold len; lia|lia|].
  exists r. by split_and!.
Qed.

(** More fuel does not change what the loop returns. *)
Lemma decode_r_while_fuel fuel fuel' n r r' :
  decode_r_while fuel n r = Ok r' → (fuel ≤ fuel')%nat →
  decode_r_while fuel' n r = Ok r'.
Proof.
  revert fuel' r. induction fuel as [|fuel IH]; intros fuel' r Hrun Hle; [done|].
  destruct fuel' as [|fuel']; [lia|]. simpl in *.
  destruct (lshift 1 r) as [m| |]; [|done..]. simpl in *.
  destruct (m <? n + 1); [|done]. apply IH; [done|lia].
Qed.

(** One parity check reads inside the list and keeps the syndrome
    non-negative. *)
Lemma decode_check_ok cw s p :
  0 ≤ p → 2 ^ p < len cw + 1 → 0 ≤ s →
  ∃ s', decode_check cw s p = Ok s' ∧ 0 ≤ s'.
Proof.
  intros Hp Hin Hs. unfold decode_check.
  destruct (parity_nonneg_index cw p Hp) as (x & -> & _). simpl.
  rewrite lshift_1_nonneg by done. simpl.
  pose proof (Z.pow_pos_nonneg 2 p).
  destruct (getitem_in_range cw (2 ^ p - 1)) as (y & -> & _); [lia|]. simpl.
  destruct (negb (x =? y)); simpl; [|by exists s].
  eexists. split; [done|]. apply Z.lor_nonneg. lia.
Qed.

Lemma decode_checks_ok cw (ps : list Z) s :
  (∀ p, p ∈ ps → 0 ≤ p ∧ 2 ^ p < len cw + 1) → 0 ≤ s →
  ∃ s', for_each (decode_check cw) ps s = Ok s' ∧ 0 ≤ s'.
Proof.
  revert s. induction ps as [|p ps IH]; intros s Hps Hs; simpl.
  - by exists s.
  - destruct (Hps p) as [Hp Hin]; [left|].
    destruct (decode_check_ok cw s p Hp Hin Hs) as (s1 & -> & Hs1). simpl.
    apply IH; [|done]. intros q Hq. apply Hps. by right.
Qed.

Lemma decode_syndrome_total cw : ∃ s, decode_syndrome cw = Ok s ∧ 0 ≤ s.
Proof.
  unfold decode_syndrome.
  destruct (decode_r_total cw) as (r & -> & Hr & Hall & _). simpl.
  apply decode_checks_ok; [|done].
  intros p Hp%elem_of_range. split; [lia|]. by apply Hall.
Qed.

Lemma decode_correct_total cw s :
  0 ≤ s → ∃ cw' b, decode_correct cw s = Ok (cw', b).
Proof.
  intros Hs. unfold decode_correct, truthy.
  destruct (Z.eqb_spec s 0) as [->|Hne]; simpl; [by eexists _, _|].
  destruct (Z.leb_spec s (len cw)) as [Hle|Hgt]; [|by eexists _, _].
  destruct (ixor_item_in_range cw (s - 1) 1) as (x & _ & ->); [lia|].
  by eexists _, _.
Qed.

(** C7: for every input list, [decode] ends and returns a pair: the
    parity slots [2^p - 1] for [p < r] and the corrected slot
    [syndrome - 1] all lie inside the list.  The model raises
    [IndexError] at any subscript outside the list and [OutOfFuel] on a
    loop cut short, and neither happens.  The list need not even hold
    bits. *)
Theorem decode_total cw :
  ∃ r s data clean,
    decode_r cw = Ok r ∧
    (∀ p, 0 ≤ p < r → 0 ≤ 2 ^ p - 1 < len cw) ∧
    decode_syndrome cw = Ok s ∧
    (truthy s && (s <=? len cw) = true → 0 ≤ s - 1 < len cw) ∧
    decode cw = Ok (data, clean).
Proof.
  destruct (decode_r_total cw) as (r & Hrun & Hr & Hall & _).
  destruct (decode_syndrome_total cw) as (s & Hsyn & Hs).
  destruct (decode_correct_total cw s Hs) as (cw' & b & Hcorr).
  exists r, s, (extract cw'), b. split_and!; [done| |done| |].
  - intros p Hp. pose proof (Hall p Hp). pose proof (Z.pow_pos_nonneg 2 p). lia.
  - unfold truthy. intros [Hne Hle]%andb_true_iff.
    apply negb_true_iff, Z.eqb_neq in Hne. apply Z.leb_le in Hle. lia.
  - unfold decode. rewrite Hsyn. simpl. by rewrite Hcorr.
Qed.

(** C6: when the syndrome [decode] computes is nonzero and greater than
    [n = len(codeword)], the correction step leaves the working codeword
    as it is, the flag is false and the data is read off the uncorrected
    codeword. *)
Theorem decode_syndrome_out_of_range cw s :
  decode_syndrome cw = Ok s → s ≠ 0 → len cw < s →
  decode_correct cw s = Ok (cw, false) ∧ decode cw = Ok (extract cw, false).
Proof.
  intros Hsyn Hne Hgt.
  assert (decode_correct cw s = Ok (cw, false)) as Hcorr.
  { unfold decode_correct, truthy.
    destruct (Z.eqb_spec s 0); [done|].
    destruct (Z.leb_spec s (len cw)); [lia|]. done. }
  split; [done|]. unfold decode. rewrite Hsyn. simpl. by rewrite Hcorr.
Qed.

Lemma decode_syndrome_out_of_range_witness :
  decode_syndrome [0;0;1;0;1] = Ok 6 ∧ 6 ≠ 0 ∧ len [0;0;1;0;1] < 6 ∧
  decode_correct [0;0;1;0;1] 6 = Ok ([0;0;1;0;1], false) ∧
  decode [0;0;1;0;1] = Ok (extract [0;0;1;0;1], false).
Proof.
  split; [reflexivity|]. split; [lia|]. split; [reflexivity|].
  apply (decode_syndrome_out_of_range [0;0;1;0;1] 6);
    [reflexivity | lia | reflexivity].
Defined.

(** C10: on the empty list the loop leaves [r = 0], no check runs, the
    syndrome is 0 and [decode] returns the empty data with flag true. *)
Theorem decode_empty :
  decode_r [] = Ok 0 ∧ decode_syndrome [] = Ok 0 ∧
  decode_correct [] 0 = Ok ([], true) ∧ decode [] = Ok ([], true).
Proof. split_and!; reflexivity. Qed.

(** C9, counterexample: [encode([])] does not return [[0]]. *)
Lemma encode_empty_counterexample : encode [] ≠ Ok [0].
Proof. by rewrite encode_unbound. Qed.

(** C9, as amended: for the empty data sequence the parity-count loop
    entered with [r = 0] yields [r = 0] and the body of [encode] then
    builds the empty codeword; [decode([0])] returns [([], true)] and
    [decode([1])] returns [([], false)]. *)
Theorem empty_data_boundary :
  num_paritybits_while (num_paritybits_fuel (len [])) (len []) (Some 0) = Ok 0 ∧
  encode_body [] 0 = Ok [] ∧
  decode [0] = Ok ([], true) ∧
  decode [1] = Ok ([], false).
Proof. split_and!; reflexivity. Qed.

(** In [decode([1])] the one bit is flipped back inside the working copy. *)
Example decode_1_correction :
  decode_syndrome [1] = Ok 1 ∧ decode_correct [1] 1 = Ok ([0], false).
Proof. split; reflexivity. Qed.
End decoder.

(** ** The caller's list *)

Section store.
Implicit Types (h : heap) (l arg : positive) (cw v : list Z).

Lemma alloc_spec h v :
  h !! (alloc h v).1 = None ∧
  (alloc h v).2 !! (alloc h v).1 = Some v ∧
  ∀ l w, h !! l = Some w → (alloc h v).2 !! l = Some w.
Proof.
  unfold alloc. simpl.
  assert (h !! fresh (dom h) = None) as Hfresh.
  { apply not_elem_of_dom, is_fresh. }
  split_and!; [done|apply lookup_insert_eq|].
  intros l w Hl. rewrite lookup_insert_ne; [done|]. congruence.
Qed.

(** The store-level decoder allocates two lists (the working copy and the
    data), touches nothing that was there before, and computes what the
    value-level [decode] computes. *)
Lemma decode_heap_refines h arg cw :
  h !! arg = Some cw →
  ∃ data clean h' d,
    decode_heap arg h = Ok (data, clean, h') ∧
    (∀ l w, h !! l = Some w → h' !! l = Some w) ∧
    h !! data = None ∧ h' !! data = Some d ∧
    decode cw = Ok (d, clean).
Proof.
  intros Harg. unfold decode_heap, decode, decode_syndrome.
  rewrite (lookup_total_correct h arg cw Harg).
  destruct (alloc_spec h cw) as (Hnew & Hcopy & Hframe).
  destruct (alloc h cw) as [lc h1] eqn:Halloc. simpl in Hnew, Hcopy, Hframe.
  rewrite (lookup_total_correct h1 lc cw Hcopy).
  destruct (decode_r_total cw) as (r & -> & Hr & Hall & _). simpl.
  destruct (decode_checks_ok cw (range r) 0) as (s & -> & Hs); [|done|].
  { intros p Hp%elem_of_range. split; [lia|]. by apply Hall. }
  simpl.
  destruct (decode_correct_total cw s Hs) as (cw' & b & Hcorr).
  rewrite Hcorr. simpl. unfold decode_correct in Hcorr.
  set (h2 := if truthy s && (s <=? len cw) then <[lc := cw']> h1 else h1).
  assert (h2 !! lc = Some cw' ∧ ∀ l w, h !! l = Some w → h2 !! l = Some w)
    as [Hwork Hframe2].
  { subst h2. destruct (truthy s && (s <=? len cw)).
    - split; [apply lookup_insert_eq|]. intros l w Hl.
      rewrite lookup_insert_ne; [by apply Hframe|congruence].
    - by injection Hcorr as <- <-. }
  assert ((if truthy s && (s <=? len cw)
           then cw'0 ← ixor_item cw (s - 1) 1; Ok (<[lc:=cw'0]> h1, false)
           else Ok (h1, s =? 0)) = Ok (h2, b)) as ->.
  { subst h2. destruct (truthy s && (s <=? len cw)).
    - destruct (ixor_item cw (s - 1) 1); [|done..]. simpl in *. congruence.
    - congruence. }
  simpl. rewrite (lookup_total_correct h2 lc cw' Hwork).
  destruct (alloc_spec h2 (extract cw')) as (Hnew2 & Hdata & Hframe3).
  unfold alloc in Hnew2, Hdata, Hframe3. simpl in Hnew2, Hdata, Hframe3.
  eexists _, _, _, _. split_and!; [done| |..|done|done].
  - intros l w Hl. by apply Hframe3, Hframe2.
  - destruct (h !! fresh (dom h2)) as [w|] eqn:Hld; [|done].
    apply Hframe2 in Hld. congruence.
Qed.

(** C8: [decode] leaves the caller's list as it found it: after the call
    the argument's location holds the same bits, and so does every other
    list that existed before the call. *)
Theorem decode_keeps_input h arg cw :
  h !! arg = Some cw →
  ∃ data clean h',
    decode_heap arg h = Ok (data, clean, h') ∧
    h' !! arg = Some cw ∧
    (∀ l w, h !! l = Some w → h' !! l = Some w).
Proof.
  intros Harg.
  destruct (decode_heap_refines h arg cw Harg)
    as (data & clean & h' & d & Hrun & Hframe & _).
  exists data, clean, h'. split_and!; [done| |done]. by apply Hframe.
Qed.

Lemma decode_keeps_input_witness :
  ({[1%positive := [1]]} : heap) !! 1%positive = Some [1] ∧
  ∃ data clean h',
    decode_heap 1 {[1%positive := [1]]} = Ok (data, clean, h') ∧
    h' !! 1%positive = Some [1] ∧
    (∀ l w, ({[1%positive := [1]]} : heap) !! l = Some w → h' !! l = Some w).
Proof.
  split; [reflexivity|].
  apply (decode_keeps_input {[1%positive := [1]]} 1 [1]). reflexivity.
Defined.

(** On that store the correction is visible in the working copy (location
    2) while the argument (location 1) still reads [[1]]. *)
Example decode_heap_1 :
  (λ '(data, clean, h'), (data, clean, map_to_list h')) <$>
    (match decode_heap 1 {[1%positive := [1]]} with
     | Ok x => Some x
     | _ => None
     end)
  = Some (3%positive, false,
          [(3%positive, []); (2%positive, [0]); (1%positive, [1])]).
Proof. vm_compute. reflexivity. Qed.
End store.

(** * Further properties of the code *)

(** ** Bits and sums *)

Section bits.
Implicit Types (i p x : Z).

(** [i & 2^p] is nonzero exactly when bit [p] of [i] is set. *)
Lemma covered_testbit p i b : 0 ≤ p → covered (2 ^ p) (i, b) = Z.testbit i p.
Proof.
  intros Hp. unfold covered, truthy. simpl.
  destruct (Z.testbit i p) eqn:Hbit.
  - apply negb_true_iff, Z.eqb_neq. intros Hz.
    assert (Z.testbit (Z.land i (2 ^ p)) p = true) as Hland.
    { rewrite Z.land_spec, Hbit, Z.pow2_bits_true; done. }
    rewrite Hz, Z.bits_0 in Hland. done.
  - apply negb_false_iff, Z.eqb_eq, Z.bits_inj'. intros m Hm.
    rewrite Z.land_spec, Z.bits_0, Z.pow2_bits_eqb by done.
    destruct (Z.eqb_spec p m) as [<-|]; [by rewrite Hbit|].
    apply andb_false_r.
Qed.

(** Below [2^p] no index has bit [p] set. *)
Lemma testbit_below_pow2 p i : 0 ≤ i < 2 ^ p → Z.testbit i p = false.
Proof.
  intros Hi. destruct (decide (i = 0)) as [->|]; [apply Z.bits_0|].
  apply Z.bits_above_log2; [lia|]. apply Z.log2_lt_pow2; lia.
Qed.

(** [x ^ 1] moves [x] by one, up when [x] is even and down when odd. *)
Lemma lxor_1 x : Z.lxor x 1 = if Z.even x then x + 1 else x - 1.
Proof.
  assert (∀ y, Z.even y = true → Z.lxor y 1 = y + 1) as Heven.
  { intros y Hy. symmetry. apply Z.add_nocarry_lxor.
    change 1 with (Z.ones 1). rewrite Z.land_ones by lia.
    rewrite Z.pow_1_r. rewrite Zeven_mod in Hy. by apply Z.eqb_eq in Hy. }
  destruct (Z.even x) eqn:Hx; [by apply Heven|].
  assert (Z.even (x - 1) = true) as Hpred.
  { rewrite Z.even_sub, Hx. done. }
  apply Heven in Hpred. replace (x - 1 + 1) with x in Hpred by lia.
  rewrite <-Hpred at 1.
  by rewrite Z.lxor_assoc, Z.lxor_nilpotent, Z.lxor_0_r.
Qed.

Lemma lxor_1_parity x s : (s + (Z.lxor x 1 - x)) `mod` 2 = 1 - s `mod` 2.
Proof.
  rewrite lxor_1. pose proof (Z.mod_pos_bound s 2).
  destruct (Z.even x).
  - replace (s + (x + 1 - x)) with (s + 1) by lia.
    rewrite (Z.div_mod s 2) at 1 by lia.
    destruct (decide (s `mod` 2 = 0)) as [->|].
    + replace (2 * (s `div` 2) + 0 + 1) with (1 + (s `div` 2) * 2) by lia.
      by rewrite Z.mod_add.
    + replace (s `mod` 2) with 1 by lia.
      replace (2 * (s `div` 2) + 1 + 1) with (0 + (s `div` 2 + 1) * 2) by lia.
      by rewrite Z.mod_add.
  - replace (s + (x - 1 - x)) with (s - 1) by lia.
    rewrite (Z.div_mod s 2) at 1 by lia.
    destruct (decide (s `mod` 2 = 0)) as [->|].
    + replace (2 * (s `div` 2) + 0 - 1) with (1 + (s `div` 2 - 1) * 2) by lia.
      by rewrite Z.mod_add.
    + replace (s `mod` 2) with 1 by lia.
      replace (2 * (s `div` 2) + 1 - 1) with (0 + (s `div` 2) * 2) by lia.
      by rewrite Z.mod_add.
Qed.

Lemma fold_add_acc (xs : list Z) a :
  fold_left Z.add xs a = a + fold_left Z.add xs 0.
Proof.
  revert a. induction xs as [|y xs IH]; intros a; simpl; [lia|].
  rewrite (IH (a + y)), (IH (0 + y)). lia.
Qed.

Lemma sum_cons x (xs : list Z) : sum (x :: xs) = x + sum xs.
Proof. unfold sum. simpl. by rewrite fold_add_acc. Qed.
End bits.

(** ** The covering set of [parity] *)

Section covering.
Implicit Types (cw l : list Z) (i p mask : Z).

(** The sum [parity] reduces modulo 2, over a list enumerated from [i0]. *)
Local Abbreviation psum mask i0 l :=
  (sum (snd <$> List.filter (covered mask) (enumerate_from i0 l))).

Lemma psum_cons mask i0 x l :
  psum mask i0 (x :: l)
  = (if truthy (Z.land i0 mask) then x else 0) + psum mask (i0 + 1) l.
Proof.
  simpl. unfold covered at 1. simpl.
  destruct (truthy (Z.land i0 mask)); simpl; [by rewrite sum_cons|lia].
Qed.

(** Writing [v] over [x] at offset [j] moves the sum by [v - x] when the
    index is selected by the mask and not at all otherwise. *)
Lemma psum_insert mask i0 (j : nat) v x l :
  l !! j = Some x →
  psum mask i0 (<[j:=v]> l)
  = psum mask i0 l
    + (if truthy (Z.land (i0 + Z.of_nat j) mask) then v - x else 0).
Proof.
  revert i0 j. induction l as [|y l IH]; intros i0 j Hj; [done|].
  destruct j as [|j].
  - injection Hj as ->. change (<[0%nat:=v]> (x :: l)) with (v :: l).
    rewrite !psum_cons, Z.add_0_r.
    destruct (truthy (Z.land i0 mask)); lia.
  - change (<[S j:=v]> (y :: l)) with (y :: <[j:=v]> l).
    rewrite !psum_cons, (IH (i0 + 1) j Hj).
    replace (i0 + 1 + Z.of_nat j) with (i0 + Z.of_nat (S j)) by lia. lia.
Qed.

Lemma psum_none mask i0 l :
  (∀ i, i0 ≤ i < i0 + len l → Z.land i mask = 0) → psum mask i0 l = 0.
Proof.
  revert i0. induction l as [|x l IH]; intros i0 Hnone; [done|].
  rewrite psum_cons, IH.
  - rewrite (Hnone i0); [done|]. unfold len. simpl. lia.
  - intros i Hi. apply Hnone. unfold len in *. simpl. lia.
Qed.

Lemma land_pow2_testbit p i : 0 ≤ p →
  truthy (Z.land i (2 ^ p)) = Z.testbit i p.
Proof. intros Hp. by rewrite <-(covered_testbit p i 0 Hp). Qed.

(** X1: a parity index whose mask [2^p] reaches past the end of the list
    selects no element, and [parity] returns 0 whatever the list holds. *)
Theorem parity_beyond_length cw p :
  0 ≤ p → len cw ≤ 2 ^ p → parity cw p = Ok 0.
Proof.
  intros Hp Hlen. unfold parity. rewrite lshift_1_nonneg by done. simpl.
  unfold enumerate. rewrite psum_none; [done|].
  intros i Hi. pose proof (land_pow2_testbit p i Hp) as Hbit.
  rewrite testbit_below_pow2 in Hbit by lia.
  unfold truthy in Hbit. by apply negb_false_iff, Z.eqb_eq in Hbit.
Qed.

Lemma parity_beyond_length_witness :
  0 ≤ 2 ∧ len [1;1;1;1] ≤ 2 ^ 2 ∧ parity [1;1;1;1] 2 = Ok 0.
Proof.
  split; [lia|]. split; [vm_compute; discriminate|].
  apply (parity_beyond_length [1;1;1;1] 2); [lia | vm_compute; discriminate].
Defined.

Lemma parity_setitem_clear_bit cw p i v c' :
  0 ≤ p → 0 ≤ i → Z.testbit i p = false →
  setitem cw i v = Ok c' → parity c' p = parity cw p.
Proof.
  intros Hp Hi Hbit Hset. unfold setitem in Hset.
  destruct (index cw i) as [j| |] eqn:Hj; [|done..].
  apply index_nonneg_inv in Hj as ->; [|done]. injection Hset as <-.
  unfold parity. rewrite lshift_1_nonneg by done. simpl.
  unfold enumerate. rewrite filter_covered_insert; [done|].
  rewrite Z2Nat.id by done. simpl.
  pose proof (land_pow2_testbit p i Hp) as Hc. rewrite Hbit in Hc.
  unfold truthy in Hc. by apply negb_false_iff, Z.eqb_eq in Hc.
Qed.

(** X2: storing any value at a non-negative index whose bit [p] is clear
    does not change [parity(codeword, p)]. *)
Theorem parity_write_uncovered cw p i v c' :
  0 ≤ p → 0 ≤ i → Z.testbit i p = false →
  setitem cw i v = Ok c' → parity c' p = parity cw p.
Proof. apply parity_setitem_clear_bit. Qed.

Lemma parity_write_uncovered_witness :
  0 ≤ 1 ∧ 0 ≤ 4 ∧ Z.testbit 4 1 = false ∧
  setitem [0;1;1;0;0;1;1] 4 1 = Ok [0;1;1;0;1;1;1] ∧
  parity [0;1;1;0;1;1;1] 1 = parity [0;1;1;0;0;1;1] 1.
Proof.
  split; [lia|]. split; [lia|]. split; [reflexivity|]. split; [reflexivity|].
  apply (parity_write_uncovered [0;1;1;0;0;1;1] 1 4 1 [0;1;1;0;1;1;1]);
    [lia | lia | reflexivity | reflexivity].
Defined.

Lemma parity_flip_set_bit cw p i c' :
  0 ≤ p → 0 ≤ i → Z.testbit i p = true → flip cw i = Ok c' →
  ∃ b, parity cw p = Ok b ∧ parity c' p = Ok (1 - b).
Proof.
  intros Hp Hi Hbit Hflip. unfold flip, ixor_item, getitem, setitem in Hflip.
  destruct (index cw i) as [j| |] eqn:Hj; [|done..].
  apply index_nonneg_inv in Hj as ->; [|done]. simpl in Hflip.
  destruct (cw !! Z.to_nat i) as [x|] eqn:Hx; [|done]. simpl in Hflip.
  injection Hflip as <-.
  unfold parity. rewrite lshift_1_nonneg by done. simpl.
  eexists. split; [done|]. f_equal.
  unfold enumerate. rewrite (psum_insert _ _ _ _ x) by done.
  rewrite Z2Nat.id, Z.add_0_l by done.
  rewrite land_pow2_testbit, Hbit by done. apply lxor_1_parity.
Qed.

(** X3: flipping the element at a non-negative index whose bit [p] is set
    turns [parity(codeword, p)] into its complement; the element need not
    be a bit. *)
Theorem parity_flip_covered cw p i c' :
  0 ≤ p → 0 ≤ i → Z.testbit i p = true → flip cw i = Ok c' →
  ∃ b, parity cw p = Ok b ∧ parity c' p = Ok (1 - b).
Proof. apply parity_flip_set_bit. Qed.

Lemma parity_flip_covered_witness :
  0 ≤ 1 ∧ 0 ≤ 2 ∧ Z.testbit 2 1 = true ∧
  flip [0;1;1;0;0;1;1] 2 = Ok [0;1;0;0;0;1;1] ∧
  ∃ b, parity [0;1;1;0;0;1;1] 1 = Ok b ∧ parity [0;1;0;0;0;1;1] 1 = Ok (1 - b).
Proof.
  split; [lia|]. split; [lia|]. split; [reflexivity|]. split; [reflexivity|].
  apply (parity_flip_covered [0;1;1;0;0;1;1] 1 2 [0;1;0;0;0;1;1]);
    [lia | lia | reflexivity | reflexivity].
Defined.
End covering.

(** ** The syndrome *)

Section syndrome.
Implicit Types (cw : list Z) (n r p q s i : Z).

(** Check [q] fails on [cw]: the evaluator and the stored bit differ. *)
Local Abbreviation fails cw q :=
  (∃ e x, parity cw q = Ok e ∧ getitem cw (2 ^ q - 1) = Ok x ∧ e ≠ x).

Lemma decode_r_unique cw r :
  decode_r cw = Ok r → r = Z.log2_up (len cw + 1).
Proof.
  intros Hrun. destruct (decode_r_total cw) as (r' & Hr' & Hpos & Hall & Hstop).
  rewrite Hr' in Hrun. injection Hrun as <-.
  destruct (decide (r' = 0)) as [->|Hne].
  - simpl in Hstop. replace (len cw + 1) with 1 by (unfold len in *; lia). done.
  - symmetry. apply Z.log2_up_unique; [lia|].
    replace (Z.pred r') with (r' - 1) by lia. split; [apply Hall; lia|done].
Qed.

Lemma decode_r_closed cw : decode_r cw = Ok (Z.log2_up (len cw + 1)).
Proof.
  destruct (decode_r_total cw) as (r & Hr & _).
  by rewrite Hr, (decode_r_unique cw r Hr).
Qed.

(** X4: the loop on [r] leaves the least [r] with [2^r >= n + 1], that is
    the base-2 logarithm of [n + 1] rounded up. *)
Theorem decode_r_log2_up cw : decode_r cw = Ok (Z.log2_up (len cw + 1)).
Proof. apply decode_r_closed. Qed.

(** One check sets bit [p] of the syndrome when it fails and leaves the
    syndrome alone when it passes. *)
Lemma decode_check_bits cw s p s' q :
  0 ≤ p → 0 ≤ q → decode_check cw s p = Ok s' →
  (Z.testbit s' q = true ↔ Z.testbit s q = true ∨ (q = p ∧ fails cw q)).
Proof.
  intros Hp Hq. unfold decode_check.
  destruct (parity cw p) as [e| |] eqn:He; [|done..]. simpl.
  rewrite lshift_1_nonneg by done. simpl.
  destruct (getitem cw (2 ^ p - 1)) as [x| |] eqn:Hx; [|done..]. simpl.
  destruct (Z.eqb_spec e x) as [->|Hne]; simpl.
  - intros [= <-]. split; [by left|].
    intros [|[-> (e' & x' & He' & Hx' & Hdiff)]]; [done|]. congruence.
  - intros [= <-]. rewrite Z.lor_spec, Z.pow2_bits_eqb, orb_true_iff by done.
    split.
    + intros [|Heq%Z.eqb_eq]; [by left|]. subst q. right. split; [done|].
      by exists e, x.
    + intros [|[-> _]]; [by left|]. right. by apply Z.eqb_eq.
Qed.

Lemma decode_checks_bits cw (ps : list Z) s s' q :
  (∀ p, p ∈ ps → 0 ≤ p) → 0 ≤ q →
  for_each (decode_check cw) ps s = Ok s' →
  (Z.testbit s' q = true ↔ Z.testbit s q = true ∨ (q ∈ ps ∧ fails cw q)).
Proof.
  revert s. induction ps as [|p ps IH]; intros s Hps Hq Hrun; simpl in Hrun.
  - injection Hrun as <-. split; [by left|]. intros [|[[]%elem_of_nil _]]. done.
  - destruct (decode_check cw s p) as [s1| |] eqn:Hstep; [|done..].
    simpl in Hrun. rewrite (IH s1) by (try done; intros; apply Hps; by right).
    rewrite (decode_check_bits cw s p s1 q) by (try done; apply Hps; left).
    rewrite elem_of_cons. tauto.
Qed.

Lemma decode_syndrome_testbit cw s q :
  decode_syndrome cw = Ok s → 0 ≤ q →
  (Z.testbit s q = true ↔ q < Z.log2_up (len cw + 1) ∧ fails cw q).
Proof.
  unfold decode_syndrome. rewrite decode_r_closed. simpl. intros Hrun Hq.
  assert (∀ p, p ∈ range (Z.log2_up (len cw + 1)) → 0 ≤ p) as Hps.
  { intros p Hp%elem_of_range. lia. }
  rewrite (decode_checks_bits cw _ 0 s q Hps Hq Hrun).
  rewrite Z.bits_0, elem_of_range. split.
  - intros [|[[_ Hlt] Hfail]]; done.
  - intros [Hlt Hfail]. right. split; [lia|done].
Qed.

(** X5: bit [q] of the syndrome is set exactly when [q < r] and check [q]
    fails (the evaluator's result differs from the stored bit), [r] being
    the parity count [decode] derives from the length. *)
Theorem decode_syndrome_bits cw s q :
  decode_syndrome cw = Ok s → 0 ≤ q →
  (Z.testbit s q = true ↔ q < Z.log2_up (len cw + 1) ∧ fails cw q).
Proof. apply decode_syndrome_testbit. Qed.

Lemma decode_syndrome_bits_witness :
  decode_syndrome [0;1;1;0;1] = Ok 5 ∧ 0 ≤ 2 ∧
  (Z.testbit 5 2 = true ↔
   2 < Z.log2_up (len [0;1;1;0;1] + 1) ∧ fails [0;1;1;0;1] 2).
Proof.
  split; [reflexivity|]. split; [lia|].
  apply (decode_syndrome_bits [0;1;1;0;1] 5 2); [reflexivity | lia].
Defined.

Lemma bits_above_bound s r :
  0 ≤ s → 0 ≤ r → (∀ q, r ≤ q → Z.testbit s q = false) → s < 2 ^ r.
Proof.
  intros Hs Hr Hbits. destruct (decide (s = 0)) as [->|Hne].
  - by apply Z.pow_pos_nonneg.
  - apply Z.log2_lt_pow2; [lia|].
    destruct (decide (Z.log2 s < r)) as [|Hge]; [done|].
    pose proof (Z.bit_log2 s) as Htop. rewrite Hbits in Htop by lia.
    discriminate Htop. lia.
Qed.
Lemma decode_syndrome_range cw :
  ∃ s, decode_syndrome cw = Ok s ∧ 0 ≤ s < 2 ^ Z.log2_up (len cw + 1).
Proof.
  destruct (decode_syndrome_total cw) as (s & Hs & Hpos).
  exists s. split; [done|]. split; [done|].
  apply bits_above_bound; [done|apply Z.log2_up_nonneg|].
  intros q Hq. destruct (Z.testbit s q) eqn:Hbit; [|done].
  apply (decode_syndrome_testbit cw s q Hs) in Hbit as [Hlt _]; [lia|].
  pose proof (Z.log2_up_nonneg (len cw + 1)). lia.
Qed.

Lemma pow2_log2_up_le n : 0 ≤ n → 2 ^ Z.log2_up (n + 1) ≤ 2 * n + 1.
Proof.
  intros Hn. destruct (decide (n = 0)) as [->|]; [done|].
  destruct (Z.log2_up_spec (n + 1)) as [Hlow _]; [lia|].
  assert (0 < Z.log2_up (n + 1)) as Hpos by (apply Z.log2_up_pos; lia).
  replace (Z.log2_up (n + 1)) with (Z.succ (Z.pred (Z.log2_up (n + 1)))) at 1 by lia.
  rewrite Z.pow_succ_r by lia. lia.
Qed.

(** X6: the syndrome is a non-negative integer of at most [r] bits; it
    never exceeds twice the length of the codeword. *)
Theorem decode_syndrome_bound cw :
  ∃ s, decode_syndrome cw = Ok s ∧
       0 ≤ s < 2 ^ Z.log2_up (len cw + 1) ∧ s ≤ 2 * len cw.
Proof.
  destruct (decode_syndrome_range cw) as (s & Hs & Hrange).
  exists s. split_and!; [done|lia|lia|].
  pose proof (pow2_log2_up_le (len cw)). unfold len in *. lia.
Qed.

(** X7: when the length is [2^m - 1] (1, 3, 7, 15, ...), the syndrome
    never points past the end of the codeword, so a nonzero syndrome is
    always followed by a correction. *)
Theorem decode_full_length cw m :
  0 ≤ m → len cw + 1 = 2 ^ m →
  ∃ s, decode_syndrome cw = Ok s ∧ 0 ≤ s ≤ len cw.
Proof.
  intros Hm Hlen. destruct (decode_syndrome_range cw) as (s & Hs & Hrange).
  exists s. split; [done|]. rewrite Hlen, Z.log2_up_pow2 in Hrange by done. lia.
Qed.

Lemma decode_full_length_witness :
  0 ≤ 3 ∧ len [1;1;1;1;1;1;0] + 1 = 2 ^ 3 ∧
  ∃ s, decode_syndrome [1;1;1;1;1;1;0] = Ok s ∧ 0 ≤ s ≤ len [1;1;1;1;1;1;0].
Proof.
  split; [lia|]. split; [reflexivity|].
  apply (decode_full_length [1;1;1;1;1;1;0] 3); [lia | reflexivity].
Defined.

(** X8: [decode] reports a clean codeword exactly when the syndrome is 0,
    and the data then is the input's data slots read as they are. *)
Theorem decode_clean_iff cw d :
  decode cw = Ok (d, true) ↔ decode_syndrome cw = Ok 0 ∧ d = extract cw.
Proof.
  unfold decode. destruct (decode_syndrome_total cw) as (s & -> & Hs). simpl.
  unfold decode_correct, truthy.
  destruct (Z.eqb_spec s 0) as [->|Hne]; simpl.
  - split; [by intros [= <-]|by intros [_ ->]].
  - destruct (s <=? len cw).
    + destruct (ixor_item cw (s - 1) 1); simpl; split; try done;
        intros [[=] _]; done.
    + simpl. split; [done|]. intros [[=] _]. done.
Qed.

Lemma decode_correct_in_range cw s :
  0 ≤ s → s ≠ 0 → s ≤ len cw →
  ∃ x, cw !! Z.to_nat (s - 1) = Some x ∧
       decode_correct cw s
       = Ok (<[Z.to_nat (s - 1) := Z.lxor x 1]> cw, false).
Proof.
  intros Hs Hne Hle.
  destruct (ixor_item_in_range cw (s - 1) 1) as (x & Hx & Hxor); [lia|].
  exists x. split; [done|]. unfold decode_correct, truthy.
  destruct (Z.eqb_spec s 0); [done|]. simpl.
  destruct (Z.leb_spec s (len cw)); [|lia]. by rewrite Hxor.
Qed.

(** X9: a nonzero syndrome [s <= n] makes [decode] xor the element at
    index [s - 1] with 1 and read the data off the result, with the flag
    false. *)
Theorem decode_corrects_slot cw s :
  decode_syndrome cw = Ok s → s ≠ 0 → s ≤ len cw →
  ∃ x, cw !! Z.to_nat (s - 1) = Some x ∧
       decode cw = Ok (extract (<[Z.to_nat (s - 1) := Z.lxor x 1]> cw), false).
Proof.
  intros Hsyn Hne Hle.
  destruct (decode_syndrome_total cw) as (s' & Hs' & Hpos).
  rewrite Hsyn in Hs'. injection Hs' as <-.
  destruct (decode_correct_in_range cw s Hpos Hne Hle) as (x & Hx & Hcorr).
  exists x. split; [done|]. unfold decode. rewrite Hsyn. simpl. by rewrite Hcorr.
Qed.

Lemma decode_corrects_slot_witness :
  decode_syndrome [0;1;1;0;1] = Ok 5 ∧ 5 ≠ 0 ∧ 5 ≤ len [0;1;1;0;1] ∧
  ∃ x, [0;1;1;0;1] !! Z.to_nat (5 - 1) = Some x ∧
       decode [0;1;1;0;1]
       = Ok (extract (<[Z.to_nat (5 - 1) := Z.lxor x 1]> [0;1;1;0;1]), false).
Proof.
  split; [reflexivity|]. split; [lia|]. split; [vm_compute; discriminate|].
  apply (decode_corrects_slot [0;1;1;0;1] 5);
    [reflexivity | lia | vm_compute; discriminate].
Defined.

(** *** One flipped element *)

Lemma len_insert cw (j : nat) v : len (<[j:=v]> cw) = len cw.
Proof. unfold len. by rewrite length_insert. Qed.

Lemma flip_inv cw i c' :
  0 ≤ i → flip cw i = Ok c' →
  ∃ x, cw !! Z.to_nat i = Some x ∧ i < len cw ∧
       c' = <[Z.to_nat i := Z.lxor x 1]> cw.
Proof.
  intros Hi Hflip. unfold flip, ixor_item, getitem, setitem in Hflip.
  destruct (index cw i) as [j| |] eqn:Hj; [|done..].
  apply index_nonneg_inv in Hj as ->; [|done]. simpl in Hflip.
  destruct (cw !! Z.to_nat i) as [x|] eqn:Hx; [|done]. simpl in Hflip.
  injection Hflip as <-. exists x. split_and!; [done| |done].
  apply lookup_lt_Some in Hx. unfold len. lia.
Qed.

Lemma getitem_insert_ne cw (j : nat) v i :
  0 ≤ i → Z.to_nat i ≠ j → getitem (<[j:=v]> cw) i = getitem cw i.
Proof.
  intros Hi Hne. unfold getitem, index. rewrite len_insert.
  destruct (Z.ltb_spec i 0); [lia|].
  destruct (_ || _); [done|]. simpl. by rewrite list_lookup_insert_ne.
Qed.

Lemma getitem_insert_eq cw (j : nat) v x :
  cw !! j = Some x → getitem (<[j:=v]> cw) (Z.of_nat j) = Ok v.
Proof.
  intros Hx. pose proof (lookup_lt_Some _ _ _ Hx) as Hlt.
  destruct (getitem_in_range (<[j:=v]> cw) (Z.of_nat j)) as (y & -> & Hy).
  { rewrite len_insert. unfold len. lia. }
  rewrite Nat2Z.id, list_lookup_insert_eq in Hy by done. congruence.
Qed.

Lemma lxor_1_ne x : Z.lxor x 1 ≠ x.
Proof. rewrite lxor_1. destruct (Z.even x); lia. Qed.

Lemma below_parity_count cw q :
  0 ≤ q → (q < Z.log2_up (len cw + 1) ↔ 2 ^ q - 1 < len cw).
Proof.
  intros Hq. rewrite <-Z.log2_up_lt_pow2 by (unfold len; lia). lia.
Qed.

(** Below the parity count both sides of a check have a value. *)
Lemma check_values cw q :
  0 ≤ q → q < Z.log2_up (len cw + 1) →
  ∃ e x, parity cw q = Ok e ∧ getitem cw (2 ^ q - 1) = Ok x.
Proof.
  intros Hq Hlt. apply below_parity_count in Hlt; [|done].
  destruct (parity_nonneg_index cw q Hq) as (e & He & _).
  pose proof (Z.pow_pos_nonneg 2 q).
  destruct (getitem_in_range cw (2 ^ q - 1)) as (x & Hx & _); [lia|].
  by exists e, x.
Qed.

(** With syndrome 0 every check below the parity count passes. *)
Lemma zero_syndrome_passes cw q e x :
  decode_syndrome cw = Ok 0 → 0 ≤ q → q < Z.log2_up (len cw + 1) →
  parity cw q = Ok e → getitem cw (2 ^ q - 1) = Ok x → e = x.
Proof.
  intros Hsyn Hq Hlt He Hx. destruct (decide (e = x)) as [|Hne]; [done|].
  assert (Z.testbit 0 q = true) as Hbit.
  { apply (decode_syndrome_testbit cw 0 q Hsyn Hq). split; [done|].
    by exists e, x. }
  by rewrite Z.bits_0 in Hbit.
Qed.

Lemma parity_slot_not_data q : 0 ≤ q → is_data_slot (2 ^ q - 1) = false.
Proof.
  intros Hq. unfold is_data_slot.
  replace (2 ^ q - 1 + 1) with (2 ^ q) by lia.
  by rewrite land_own_slot.
Qed.

Lemma decode_syndrome_flip_data cw i c' :
  decode_syndrome cw = Ok 0 → 0 ≤ i → is_data_slot i = true →
  flip cw i = Ok c' → decode_syndrome c' = Ok i.
Proof.
  intros Hsyn Hi Hdata Hflip.
  destruct (flip_inv cw i c' Hi Hflip) as (x & Hx & Hlt & Hc').
  assert (len c' = len cw) as Hlen by (subst c'; apply len_insert).
  destruct (decode_syndrome_total c') as (s' & Hs' & Hpos).
  rewrite Hs'. f_equal. apply Z.bits_inj'. intros q Hq.
  apply eq_true_iff_eq.
  rewrite (decode_syndrome_testbit c' s' q Hs' Hq), Hlen.
  assert (Z.to_nat (2 ^ q - 1) ≠ Z.to_nat i) as Hslot.
  { intros Heq. pose proof (Z.pow_pos_nonneg 2 q).
    assert (i = 2 ^ q - 1) as -> by lia.
    rewrite parity_slot_not_data in Hdata by done. done. }
  assert (getitem c' (2 ^ q - 1) = getitem cw (2 ^ q - 1)) as Hstored.
  { subst c'. apply getitem_insert_ne; [|done].
    pose proof (Z.pow_pos_nonneg 2 q). lia. }
  split.
  - intros [Hq_lt (e' & y & He' & Hy & Hne)].
    destruct (Z.testbit i q) eqn:Hbit; [done|]. exfalso.
    rewrite Hstored in Hy.
    assert (parity c' q = parity cw q) as Hpar.
    { subst c'. apply (parity_setitem_clear_bit cw q i (Z.lxor x 1)); try done.
      by apply setitem_in_range. }
    rewrite Hpar in He'.
    by apply Hne, (zero_syndrome_passes cw q).
  - intros Hbit.
    assert (q < Z.log2_up (len cw + 1)) as Hq_lt.
    { apply below_parity_count; [done|].
      destruct (decide (2 ^ q - 1 < len cw)) as [|Hge]; [done|].
      rewrite testbit_below_pow2 in Hbit by lia. done. }
    split; [done|].
    destruct (check_values cw q Hq Hq_lt) as (e & y & He & Hy).
    destruct (parity_flip_set_bit cw q i c' Hq Hi Hbit Hflip) as (b & Hb & Hb').
    rewrite He in Hb. injection Hb as <-.
    exists (1 - e), y. split_and!; [done|by rewrite Hstored|].
    rewrite (zero_syndrome_passes cw q e y) by done. lia.
Qed.

(** X10: take a codeword that passes every check (syndrome 0) and flip
    the element of a data slot [i]: the syndrome of the result is [i],
    the 0-based index, not the 1-based position [i + 1]. *)
Theorem decode_syndrome_after_data_flip cw i c' :
  decode_syndrome cw = Ok 0 → 0 ≤ i → is_data_slot i = true →
  flip cw i = Ok c' → decode_syndrome c' = Ok i.
Proof. apply decode_syndrome_flip_data. Qed.

Lemma decode_syndrome_after_data_flip_witness :
  decode_syndrome [1;0;1;0;0;1;1] = Ok 0 ∧ 0 ≤ 4 ∧ is_data_slot 4 = true ∧
  flip [1;0;1;0;0;1;1] 4 = Ok [1;0;1;0;1;1;1] ∧
  decode_syndrome [1;0;1;0;1;1;1] = Ok 4.
Proof.
  split; [reflexivity|]. split; [lia|]. split; [reflexivity|].
  split; [reflexivity|].
  apply (decode_syndrome_after_data_flip [1;0;1;0;0;1;1] 4 [1;0;1;0;1;1;1]);
    [reflexivity | lia | reflexivity | reflexivity].
Defined.

Lemma testbit_ones_sub p q :
  0 ≤ p → 0 ≤ q → Z.testbit (2 ^ p - 1) q = bool_decide (q < p).
Proof.
  intros Hp Hq. replace (2 ^ p - 1) with (Z.ones p) by (rewrite Z.ones_equiv; lia).
  case_bool_decide.
  - apply Z.ones_spec_low. lia.
  - apply Z.ones_spec_high. lia.
Qed.

Lemma decode_syndrome_flip_parity cw p c' :
  decode_syndrome cw = Ok 0 → 0 ≤ p →
  flip cw (2 ^ p - 1) = Ok c' → decode_syndrome c' = Ok (2 ^ (p + 1) - 1).
Proof.
  intros Hsyn Hp Hflip. pose proof (Z.pow_pos_nonneg 2 p) as Hpow.
  assert (0 ≤ 2 ^ p - 1) as Hi by lia.
  destruct (flip_inv cw _ c' Hi Hflip) as (x & Hx & Hlt & Hc').
  assert (len c' = len cw) as Hlen by (subst c'; apply len_insert).
  assert (p < Z.log2_up (len cw + 1)) as Hp_lt by by apply below_parity_count.
  destruct (decode_syndrome_total c') as (s' & Hs' & Hpos).
  rewrite Hs'. f_equal. apply Z.bits_inj'. intros q Hq.
  apply eq_true_iff_eq.
  rewrite (decode_syndrome_testbit c' s' q Hs' Hq), Hlen.
  rewrite testbit_ones_sub, bool_decide_eq_true by lia.
  assert (q ≠ p → getitem c' (2 ^ q - 1) = getitem cw (2 ^ q - 1)) as Hstored.
  { intros Hne. subst c'. pose proof (Z.pow_pos_nonneg 2 q).
    apply getitem_insert_ne; [lia|].
    intros Heq. apply Hne, (Z.pow_inj_r 2); lia. }
  assert (∀ e, parity cw q = Ok e →
            parity c' q = Ok (if bool_decide (q < p) then 1 - e else e))
    as Hpar.
  { intros e He. case_bool_decide as Hqp.
    - destruct (parity_flip_set_bit cw q (2 ^ p - 1) c') as (b & Hb & Hb');
        [done|done| |done|].
      { rewrite testbit_ones_sub by done. by apply bool_decide_eq_true. }
      congruence.
    - rewrite <-He. subst c'.
      apply (parity_setitem_clear_bit cw q (2 ^ p - 1) (Z.lxor x 1)); try done.
      + rewrite testbit_ones_sub by done. by apply bool_decide_eq_false.
      + by apply setitem_in_range. }
  split.
  - intros [Hq_lt (e' & y & He' & Hy & Hne)].
    destruct (decide (q < p + 1)) as [|Hge]; [done|]. exfalso.
    destruct (check_values cw q Hq Hq_lt) as (e & y0 & He & Hy0).
    rewrite Hstored, Hy0 in Hy by lia. injection Hy as <-.
    rewrite (Hpar e He), bool_decide_eq_false_2 in He' by lia.
    injection He' as <-. by apply Hne, (zero_syndrome_passes cw q).
  - intros Hq_le. assert (q < Z.log2_up (len cw + 1)) as Hq_lt by lia.
    split; [done|].
    destruct (check_values cw q Hq Hq_lt) as (e & y & He & Hy).
    pose proof (zero_syndrome_passes cw q e y Hsyn Hq Hq_lt He Hy) as ->.
    destruct (decide (q = p)) as [->|Hne].
    + exists y, (Z.lxor x 1). split_and!.
      * rewrite (Hpar y He). by rewrite bool_decide_eq_false_2 by lia.
      * subst c'. rewrite <-(Z2Nat.id (2 ^ p - 1)) at 2 by done.
        by apply (getitem_insert_eq cw _ _ x).
      * destruct (getitem_in_range cw (2 ^ p - 1)) as (y' & Hy' & Hl); [lia|].
        assert (y = x) as -> by congruence. intros Heq. by apply (lxor_1_ne x).
    + exists (1 - y), y. split_and!.
      * rewrite (Hpar y He). by rewrite bool_decide_eq_true_2 by lia.
      * by rewrite Hstored.
      * lia.
Qed.

(** X11: flip instead the element of parity slot [2^p - 1]: checks
    [0 .. p] all fail on the result and the syndrome is [2^(p+1) - 1]. *)
Theorem decode_syndrome_after_parity_flip cw p c' :
  decode_syndrome cw = Ok 0 → 0 ≤ p →
  flip cw (2 ^ p - 1) = Ok c' → decode_syndrome c' = Ok (2 ^ (p + 1) - 1).
Proof. apply decode_syndrome_flip_parity. Qed.

Lemma decode_syndrome_after_parity_flip_witness :
  decode_syndrome [1;0;1;0;0;1;1] = Ok 0 ∧ 0 ≤ 1 ∧
  flip [1;0;1;0;0;1;1] (2 ^ 1 - 1) = Ok [1;1;1;0;0;1;1] ∧
  decode_syndrome [1;1;1;0;0;1;1] = Ok (2 ^ (1 + 1) - 1).
Proof.
  split; [reflexivity|]. split; [lia|]. split; [reflexivity|].
  apply (decode_syndrome_after_parity_flip [1;0;1;0;0;1;1] 1 [1;1;1;0;0;1;1]);
    [reflexivity | lia | reflexivity].
Defined.

(** *** What the correction does to the data *)

(** The final comprehension, over a list enumerated from [i0]. *)
Local Abbreviation extract_from i0 l :=
  (snd <$> List.filter (λ ib : Z * Z, is_data_slot ib.1) (enumerate_from i0 l)).

Lemma extract_from_cons i0 x (l : list Z) :
  extract_from i0 (x :: l)
  = (if is_data_slot i0 then [x] else []) ++ extract_from (i0 + 1) l.
Proof. simpl. by destruct (is_data_slot i0). Qed.

(** Two lists of one length with the same data agree on every data slot. *)
Lemma extract_from_agree i0 (l1 l2 : list Z) (j : nat) :
  length l1 = length l2 → extract_from i0 l1 = extract_from i0 l2 →
  is_data_slot (i0 + Z.of_nat j) = true → l1 !! j = l2 !! j.
Proof.
  revert i0 l2 j. induction l1 as [|x1 l1 IH]; intros i0 [|x2 l2] j Hlen Hex Hj;
    try done.
  rewrite !extract_from_cons in Hex. destruct j as [|j].
  - rewrite Z.add_0_r in Hj. rewrite Hj in Hex. simpl in Hex.
    injection Hex as -> _. done.
  - simpl. apply (IH (i0 + 1)).
    + simpl in Hlen. lia.
    + destruct (is_data_slot i0); simpl in Hex; [by injection Hex|done].
    + rewrite <-Hj. f_equal. lia.
Qed.

(** Writing a slot that carries no data leaves the extracted data alone. *)
Lemma extract_from_insert i0 (l : list Z) (j : nat) v :
  is_data_slot (i0 + Z.of_nat j) = false →
  extract_from i0 (<[j:=v]> l) = extract_from i0 l.
Proof.
  revert i0 j. induction l as [|x l IH]; intros i0 j Hj; [done|].
  destruct j as [|j].
  - change (<[0%nat:=v]> (x :: l)) with (v :: l).
    rewrite !extract_from_cons. rewrite Z.add_0_r in Hj. by rewrite Hj.
  - change (<[S j:=v]> (x :: l)) with (x :: <[j:=v]> l).
    rewrite !extract_from_cons, (IH (i0 + 1) j); [done|].
    rewrite <-Hj. f_equal. lia.
Qed.

(** X12: after a flip in a data slot [i] of a codeword with syndrome 0,
    [decode] xors slot [i - 1] instead of slot [i]: it answers with the
    flag false and with data that differ from the data of the codeword
    before the flip. *)
Theorem decode_miscorrects_data_flip cw i c' :
  decode_syndrome cw = Ok 0 → 0 ≤ i → is_data_slot i = true →
  flip cw i = Ok c' →
  ∃ y, c' !! Z.to_nat (i - 1) = Some y ∧
       decode c' = Ok (extract (<[Z.to_nat (i - 1) := Z.lxor y 1]> c'), false) ∧
       extract (<[Z.to_nat (i - 1) := Z.lxor y 1]> c') ≠ extract cw.
Proof.
  intros Hsyn Hi Hdata Hflip.
  pose proof (decode_syndrome_flip_data cw i c' Hsyn Hi Hdata Hflip) as Hsyn'.
  destruct (flip_inv cw i c' Hi Hflip) as (x & Hx & Hlt & Hc').
  assert (len c' = len cw) as Hlen by (subst c'; apply len_insert).
  assert (i ≠ 0) as Hne by (intros ->; done).
  destruct (decode_syndrome_total c') as (s' & Hs' & Hpos).
  destruct (decode_correct_in_range c' i) as (y & Hy & Hcorr); [lia..|].
  exists y. split_and!; [done| |].
  - unfold decode. rewrite Hsyn'. simpl. by rewrite Hcorr.
  - intros Hex.
    assert (<[Z.to_nat (i - 1) := Z.lxor y 1]> c' !! Z.to_nat i = cw !! Z.to_nat i)
      as Hsame.
    { apply (extract_from_agree 0); [|done|].
      - subst c'. by rewrite !length_insert.
      - by rewrite Z.add_0_l, Z2Nat.id. }
    rewrite list_lookup_insert_ne, Hx in Hsame by lia. subst c'.
    rewrite list_lookup_insert_eq in Hsame by (by apply lookup_lt_Some in Hx).
    injection Hsame as Hfix. by apply (lxor_1_ne x).
Qed.

Lemma decode_miscorrects_data_flip_witness :
  decode_syndrome [1;0;1;0;0;1;1] = Ok 0 ∧ 0 ≤ 4 ∧ is_data_slot 4 = true ∧
  flip [1;0;1;0;0;1;1] 4 = Ok [1;0;1;0;1;1;1] ∧
  ∃ y, [1;0;1;0;1;1;1] !! Z.to_nat (4 - 1) = Some y ∧
       decode [1;0;1;0;1;1;1]
       = Ok (extract (<[Z.to_nat (4 - 1) := Z.lxor y 1]> [1;0;1;0;1;1;1]), false) ∧
       extract (<[Z.to_nat (4 - 1) := Z.lxor y 1]> [1;0;1;0;1;1;1])
       ≠ extract [1;0;1;0;0;1;1].
Proof.
  split; [reflexivity|]. split; [lia|]. split; [reflexivity|].
  split; [reflexivity|].
  apply (decode_miscorrects_data_flip [1;0;1;0;0;1;1] 4 [1;0;1;0;1;1;1]);
    [reflexivity | lia | reflexivity | reflexivity].
Defined.

(** X13: a flip of slot 0 is the one [decode] undoes: the syndrome is 1,
    slot 0 is flipped back and the data of the original codeword come
    out, with the flag false. *)
Theorem decode_undoes_slot0_flip cw c' :
  decode_syndrome cw = Ok 0 → flip cw 0 = Ok c' →
  decode_correct c' 1 = Ok (cw, false) ∧ decode c' = Ok (extract cw, false).
Proof.
  intros Hsyn Hflip.
  pose proof (decode_syndrome_flip_parity cw 0 c' Hsyn ltac:(lia) Hflip) as Hsyn'.
  change (2 ^ (0 + 1) - 1) with 1 in Hsyn'.
  destruct (flip_inv cw 0 c' ltac:(lia) Hflip) as (x & Hx & Hlt & Hc').
  assert (len c' = len cw) as Hlen by (subst c'; apply len_insert).
  destruct (decode_correct_in_range c' 1) as (y & Hy & Hcorr); [lia..|].
  change (Z.to_nat (1 - 1)) with 0%nat in Hy, Hcorr.
  change (Z.to_nat 0) with 0%nat in Hx, Hc'.
  assert (<[0%nat := Z.lxor y 1]> c' = cw) as Hback.
  { subst c'. rewrite list_lookup_insert_eq in Hy by (by apply lookup_lt_Some in Hx).
    injection Hy as <-.
    rewrite list_insert_insert_eq, Z.lxor_assoc, Z.lxor_nilpotent, Z.lxor_0_r.
    by apply list_insert_id. }
  rewrite Hback in Hcorr. split; [done|].
  unfold decode. rewrite Hsyn'. simpl. by rewrite Hcorr.
Qed.

Lemma decode_undoes_slot0_flip_witness :
  decode_syndrome [1;0;1;0;0;1;1] = Ok 0 ∧
  flip [1;0;1;0;0;1;1] 0 = Ok [0;0;1;0;0;1;1] ∧
  decode_correct [0;0;1;0;0;1;1] 1 = Ok ([1;0;1;0;0;1;1], false) ∧
  decode [0;0;1;0;0;1;1] = Ok (extract [1;0;1;0;0;1;1], false).
Proof.
  split; [reflexivity|]. split; [reflexivity|].
  apply (decode_undoes_slot0_flip [1;0;1;0;0;1;1] [0;0;1;0;0;1;1]);
    [reflexivity | reflexivity].
Defined.

Lemma extract_insert_parity_slot cw p v :
  0 ≤ p → extract (<[Z.to_nat (2 ^ p - 1) := v]> cw) = extract cw.
Proof.
  intros Hp. pose proof (Z.pow_pos_nonneg 2 p). unfold extract, enumerate.
  apply extract_from_insert.
  rewrite Z.add_0_l, Z2Nat.id by lia. by apply parity_slot_not_data.
Qed.

Lemma decode_beyond_end cw s :
  decode_syndrome cw = Ok s → s ≠ 0 → len cw < s →
  decode_correct cw s = Ok (cw, false) ∧ decode cw = Ok (extract cw, false).
Proof.
  intros Hsyn Hne Hgt.
  assert (decode_correct cw s = Ok (cw, false)) as Hcorr.
  { unfold decode_correct, truthy. destruct (Z.eqb_spec s 0); [done|].
    simpl. by destruct (Z.leb_spec s (len cw)); [lia|]. }
  split; [done|]. unfold decode. rewrite Hsyn. simpl. by rewrite Hcorr.
Qed.

(** X14: a flip of parity slot [2^p - 1] whose syndrome [2^(p+1) - 1]
    points past the end is reported (flag false) and left in place; the
    data come out as they were. *)
Theorem decode_parity_flip_short cw p c' :
  decode_syndrome cw = Ok 0 → 0 ≤ p → len cw < 2 ^ (p + 1) - 1 →
  flip cw (2 ^ p - 1) = Ok c' →
  decode_correct c' (2 ^ (p + 1) - 1) = Ok (c', false) ∧
  decode c' = Ok (extract cw, false).
Proof.
  intros Hsyn Hp Hshort Hflip. pose proof (Z.pow_pos_nonneg 2 p) as Hpow.
  assert (2 ^ (p + 1) = 2 * 2 ^ p) as Hdouble.
  { rewrite Z.pow_add_r by lia. lia. }
  pose proof (decode_syndrome_flip_parity cw p c' Hsyn Hp Hflip) as Hsyn'.
  destruct (flip_inv cw (2 ^ p - 1) c') as (x & Hx & Hlt & Hc'); [lia|done|].
  assert (len c' = len cw) as Hlen by (subst c'; apply len_insert).
  destruct (decode_beyond_end c' (2 ^ (p + 1) - 1))
    as [Hcorr Hdec]; [done|lia|lia|].
  split; [done|]. rewrite Hdec. subst c'.
  by rewrite extract_insert_parity_slot.
Qed.

Lemma decode_parity_flip_short_witness :
  decode_syndrome [1;0;1;1;1] = Ok 0 ∧ 0 ≤ 2 ∧
  len [1;0;1;1;1] < 2 ^ (2 + 1) - 1 ∧
  flip [1;0;1;1;1] (2 ^ 2 - 1) = Ok [1;0;1;0;1] ∧
  decode_correct [1;0;1;0;1] (2 ^ (2 + 1) - 1) = Ok ([1;0;1;0;1], false) ∧
  decode [1;0;1;0;1] = Ok (extract [1;0;1;1;1], false).
Proof.
  split; [reflexivity|]. split; [lia|]. split; [reflexivity|].
  split; [reflexivity|].
  apply (decode_parity_flip_short [1;0;1;1;1] 2 [1;0;1;0;1]);
    [reflexivity | lia | reflexivity | reflexivity].
Defined.

(** The slot just below parity slot [2^(p+1) - 1] carries data. *)
Lemma slot_below_parity_is_data p : 1 ≤ p → is_data_slot (2 ^ (p + 1) - 2) = true.
Proof.
  intros Hp. unfold is_data_slot. apply negb_true_iff, Z.eqb_neq. intros Hz.
  assert (Z.testbit (Z.land (2 ^ (p + 1) - 2) (2 ^ (p + 1) - 2 + 1)) p = true)
    as Hbit.
  { rewrite Z.land_spec. apply andb_true_iff. split.
    - replace (2 ^ (p + 1) - 2) with (2 * (2 ^ (p - 1 + 1) - 1)).
      + replace p with (Z.succ (p - 1)) at 2 by lia.
        rewrite Z.double_bits_succ, testbit_ones_sub by lia.
        apply bool_decide_eq_true. lia.
      + replace (p - 1 + 1) with p by lia. rewrite Z.pow_add_r by lia. lia.
    - replace (2 ^ (p + 1) - 2 + 1) with (2 ^ (p + 1) - 1) by lia.
      rewrite testbit_ones_sub by lia. apply bool_decide_eq_true. lia. }
  rewrite Hz, Z.bits_0 in Hbit. done.
Qed.

(** X15: a flip of parity slot [2^p - 1], [p >= 1], in a codeword long
    enough for the syndrome [2^(p+1) - 1] to be in range makes [decode]
    xor data slot [2^(p+1) - 2]: the data returned differ from the data
    of the codeword before the flip. *)
Theorem decode_parity_flip_long cw p c' :
  decode_syndrome cw = Ok 0 → 1 ≤ p → 2 ^ (p + 1) - 1 ≤ len cw →
  flip cw (2 ^ p - 1) = Ok c' →
  ∃ y, c' !! Z.to_nat (2 ^ (p + 1) - 2) = Some y ∧
       decode c'
       = Ok (extract (<[Z.to_nat (2 ^ (p + 1) - 2) := Z.lxor y 1]> c'), false) ∧
       extract (<[Z.to_nat (2 ^ (p + 1) - 2) := Z.lxor y 1]> c') ≠ extract cw.
Proof.
  intros Hsyn Hp Hlong Hflip. pose proof (Z.pow_pos_nonneg 2 p) as Hpow.
  assert (2 ^ (p + 1) = 2 * 2 ^ p) as Hdouble.
  { rewrite Z.pow_add_r by lia. lia. }
  assert (2 ≤ 2 ^ p) as Hbig.
  { replace p with (Z.succ (p - 1)) by lia. rewrite Z.pow_succ_r by lia.
    pose proof (Z.pow_pos_nonneg 2 (p - 1)). lia. }
  pose proof (decode_syndrome_flip_parity cw p c' Hsyn ltac:(lia) Hflip) as Hsyn'.
  destruct (flip_inv cw (2 ^ p - 1) c') as (x & Hx & Hlt & Hc'); [lia|done|].
  assert (len c' = len cw) as Hlen by (subst c'; apply len_insert).
  destruct (decode_correct_in_range c' (2 ^ (p + 1) - 1))
    as (y & Hy & Hcorr); [lia..|].
  replace (2 ^ (p + 1) - 1 - 1) with (2 ^ (p + 1) - 2) in Hy, Hcorr by lia.
  exists y. split_and!; [done| |].
  - unfold decode. rewrite Hsyn'. simpl. by rewrite Hcorr.
  - intros Hex.
    assert (<[Z.to_nat (2 ^ (p + 1) - 2) := Z.lxor y 1]> c'
              !! Z.to_nat (2 ^ (p + 1) - 2)
            = cw !! Z.to_nat (2 ^ (p + 1) - 2)) as Hsame.
    { apply (extract_from_agree 0); [|done|].
      - subst c'. by rewrite !length_insert.
      - rewrite Z.add_0_l, Z2Nat.id by lia. by apply slot_below_parity_is_data. }
    rewrite list_lookup_insert_eq in Hsame by (by apply lookup_lt_Some in Hy).
    subst c'. rewrite list_lookup_insert_ne in Hy by lia.
    rewrite Hy in Hsame. injection Hsame as Hfix. by apply (lxor_1_ne y).
Qed.

Lemma decode_parity_flip_long_witness :
  decode_syndrome [1;0;1;0;0;1;1] = Ok 0 ∧ 1 ≤ 1 ∧
  2 ^ (1 + 1) - 1 ≤ len [1;0;1;0;0;1;1] ∧
  flip [1;0;1;0;0;1;1] (2 ^ 1 - 1) = Ok [1;1;1;0;0;1;1] ∧
  ∃ y, [1;1;1;0;0;1;1] !! Z.to_nat (2 ^ (1 + 1) - 2) = Some y ∧
       decode [1;1;1;0;0;1;1]
       = Ok (extract (<[Z.to_nat (2 ^ (1 + 1) - 2) := Z.lxor y 1]>
                        [1;1;1;0;0;1;1]), false) ∧
       extract (<[Z.to_nat (2 ^ (1 + 1) - 2) := Z.lxor y 1]> [1;1;1;0;0;1;1])
       ≠ extract [1;0;1;0;0;1;1].
Proof.
  split; [reflexivity|]. split; [lia|]. split; [vm_compute; discriminate|].
  split; [reflexivity|].
  apply (decode_parity_flip_long [1;0;1;0;0;1;1] 1 [1;1;1;0;0;1;1]);
    [reflexivity | lia | vm_compute; discriminate | reflexivity].
Defined.

(** *** How many data bits come out *)

(** A slot carries no data exactly when its 1-based position is a power
    of two. *)
Lemma is_data_slot_false_iff n :
  0 ≤ n → (is_data_slot n = false ↔ ∃ b, n + 1 = 2 ^ b).
Proof.
  intros Hn. split.
  - intros Hslot. unfold is_data_slot in Hslot.
    apply negb_false_iff, Z.eqb_eq in Hslot.
    exists (Z.log2 (n + 1)).
    destruct (Z.log2_spec (n + 1)) as [Hlow Hhigh]; [lia|].
    destruct (decide (n + 1 = 2 ^ Z.log2 (n + 1))) as [|Hne]; [done|]. exfalso.
    pose proof (Z.log2_nonneg (n + 1)) as Hb.
    assert (Z.log2 n = Z.log2 (n + 1)) as Hlog by (apply Z.log2_unique; lia).
    pose proof (Z.pow_pos_nonneg 2 (Z.log2 (n + 1))).
    assert (Z.testbit (Z.land n (n + 1)) (Z.log2 (n + 1)) = true) as Hbit.
    { rewrite Z.land_spec. apply andb_true_iff. split.
      - rewrite <-Hlog. apply Z.bit_log2. lia.
      - apply Z.bit_log2. lia. }
    rewrite Hslot, Z.bits_0 in Hbit. done.
  - intros [b Hb]. destruct (decide (0 ≤ b)) as [Hpos|Hneg].
    + replace n with (2 ^ b - 1) by lia. by apply parity_slot_not_data.
    + rewrite Z.pow_neg_r in Hb by lia. lia.
Qed.

Lemma enumerate_from_snoc i0 (l : list Z) x :
  enumerate_from i0 (l ++ [x]) = enumerate_from i0 l ++ [(i0 + len l, x)].
Proof.
  revert i0. induction l as [|y l IH]; intros i0; simpl.
  - unfold len. simpl. by rewrite Z.add_0_r.
  - rewrite IH. replace (i0 + 1 + len l) with (i0 + len (y :: l)); [done|].
    unfold len. rewrite length_cons, Nat2Z.inj_succ. lia.
Qed.

Lemma extract_snoc (l : list Z) x :
  extract (l ++ [x]) = extract l ++ (if is_data_slot (len l) then [x] else []).
Proof.
  unfold extract, enumerate.
  rewrite enumerate_from_snoc, List.filter_app, fmap_app, Z.add_0_l. simpl.
  by destruct (is_data_slot (len l)).
Qed.

Lemma extract_length (l : list Z) :
  len (extract l) = len l - Z.log2_up (len l + 1).
Proof.
  induction l as [|x l IH] using rev_ind; [done|].
  rewrite extract_snoc. unfold len in *. rewrite !length_app, !Nat2Z.inj_add, IH.
  set (n := Z.of_nat (length l)). assert (0 ≤ n) as Hn by lia.
  change (Z.of_nat (length [x])) with 1.
  replace (n + 1 + 1) with (Z.succ (n + 1)) by lia.
  pose proof (Z.log2_up_eq_succ_iff_pow2 (n + 1) ltac:(lia)) as Hpow.
  pose proof (is_data_slot_false_iff n Hn) as Hslot.
  destruct (is_data_slot n) eqn:Hdata; simpl.
  - destruct (Z.log2_up_succ_or (n + 1)) as [Hsucc|Hsame]; [|lia].
    apply Hpow, Hslot in Hsucc. done.
  - assert (Z.log2_up (Z.succ (n + 1)) = Z.succ (Z.log2_up (n + 1))) as ->.
    { apply Hpow, Hslot. done. }
    lia.
Qed.

Lemma decode_correct_length cw s cw' b :
  decode_correct cw s = Ok (cw', b) → len cw' = len cw.
Proof.
  unfold decode_correct, ixor_item, setitem.
  destruct (truthy s && (s <=? len cw)); [|by intros [= <- _]].
  destruct (getitem cw (s - 1)); [|done..]. simpl.
  destruct (index cw (s - 1)); [|done..]. simpl.
  intros [= <- _]. apply len_insert.
Qed.

(** X16: [decode] returns [n - r] data elements, [n] being the length of
    its argument and [r] the least integer with [2^r >= n + 1]: one per
    position that is not a power of two, whatever the content. *)
Theorem decode_data_length cw :
  ∃ d b, decode cw = Ok (d, b) ∧ len d = len cw - Z.log2_up (len cw + 1).
Proof.
  destruct (decode_syndrome_total cw) as (s & Hs & Hpos).
  destruct (decode_correct_total cw s Hpos) as (cw' & b & Hcorr).
  exists (extract cw'), b. split.
  - unfold decode. rewrite Hs. simpl. by rewrite Hcorr.
  - by rewrite extract_length, (decode_correct_length cw s cw' b).
Qed.
End syndrome.

(** ** More on the evaluator and the store *)

Section results.
Implicit Types (cw : list Z) (p : Z) (h : heap) (arg : positive).

(** X17: [parity] raises [ValueError] on a negative parity index (the
    shift [1 << p]) and on any other index returns 0 or 1, also when the
    list holds integers that are not bits. *)
Theorem parity_outcome cw p :
  (p < 0 ∧ parity cw p = Raise ValueError) ∨
  (0 ≤ p ∧ (parity cw p = Ok 0 ∨ parity cw p = Ok 1)).
Proof.
  destruct (decide (p < 0)) as [Hneg|Hpos].
  - left. split; [done|]. unfold parity. by rewrite lshift_neg.
  - right. split; [lia|].
    destruct (parity_nonneg_index cw p) as (x & -> & Hx); [lia|].
    destruct (decide (x = 0)) as [->|]; [by left|].
    right. f_equal. lia.
Qed.

(** X18: the list [decode] returns is a new object: its location is not
    one of the store before the call, so it is neither the argument nor
    an alias of any list the caller holds; it contains what [decode]
    computes on the argument's value. *)
Theorem decode_returns_fresh_list h arg cw :
  h !! arg = Some cw →
  ∃ data clean h' d,
    decode_heap arg h = Ok (data, clean, h') ∧
    h !! data = None ∧ data ≠ arg ∧
    h' !! data = Some d ∧ decode cw = Ok (d, clean).
Proof.
  intros Harg.
  destruct (decode_heap_refines h arg cw Harg)
    as (data & clean & h' & d & Hrun & _ & Hfresh & Hdata & Hdec).
  exists data, clean, h', d. split_and!; try done. congruence.
Qed.

Lemma decode_returns_fresh_list_witness :
  ({[1%positive := [0;1;1;0;1]]} : heap) !! 1%positive = Some [0;1;1;0;1] ∧
  ∃ data clean h' d,
    decode_heap 1 {[1%positive := [0;1;1;0;1]]} = Ok (data, clean, h') ∧
    ({[1%positive := [0;1;1;0;1]]} : heap) !! data = None ∧
    data ≠ 1%positive ∧
    h' !! data = Some d ∧ decode [0;1;1;0;1] = Ok (d, clean).
Proof.
  split; [reflexivity|].
  apply (decode_returns_fresh_list {[1%positive := [0;1;1;0;1]]} 1 [0;1;1;0;1]).
  reflexivity.
Defined.
End results.

(** ** The body of the encoder *)

Section placement.
Implicit Types (data cw : list Z) (n r p k j : Z).

Lemma for_each_app {St X : Type} (body : St → X → result St) xs ys s :
  for_each body (xs ++ ys) s = (s' ← for_each body xs s; for_each body ys s').
Proof.
  revert s. induction xs as [|x xs IH]; intros s; simpl; [done|].
  destruct (body s x); simpl; [apply IH|done..].
Qed.

(** Going one slot up raises the parity count exactly at the slots that
    carry no data. *)
Lemma log2_up_step n :
  0 ≤ n →
  Z.log2_up (n + 2) = Z.log2_up (n + 1) + (if is_data_slot n then 0 else 1).
Proof.
  intros Hn. replace (n + 2) with (Z.succ (n + 1)) by lia.
  pose proof (Z.log2_up_eq_succ_iff_pow2 (n + 1) ltac:(lia)) as Hpow.
  pose proof (is_data_slot_false_iff n Hn) as Hslot.
  destruct (is_data_slot n) eqn:Hdata.
  - destruct (Z.log2_up_succ_or (n + 1)) as [Hsucc|Hsame]; [|lia].
    apply Hpow, Hslot in Hsucc. done.
  - assert (Z.log2_up (Z.succ (n + 1)) = Z.succ (Z.log2_up (n + 1))) as ->.
    { apply Hpow, Hslot. done. }
    lia.
Qed.

(** The number of data slots below [m] does not decrease with [m]. *)
Lemma data_slots_mono (a : Z) (d : nat) :
  0 ≤ a →
  a - Z.log2_up (a + 1) ≤ a + Z.of_nat d - Z.log2_up (a + Z.of_nat d + 1).
Proof.
  intros Ha. induction d as [|d IH]; [by rewrite Z.add_0_r|].
  rewrite Nat2Z.inj_succ.
  replace (a + Z.succ (Z.of_nat d) + 1) with (a + Z.of_nat d + 2) by lia.
  rewrite log2_up_step by lia. destruct (is_data_slot _); lia.
Qed.

(** The first loop: after slots [0 .. m - 1] the data slots seen so far
    hold [data[0 .. j - 1]], [j] being their number. *)
Lemma encode_place_prefix data cw0 (m : nat) :
  Z.of_nat m ≤ len cw0 →
  len cw0 - Z.log2_up (len cw0 + 1) ≤ len data →
  ∃ cw j,
    for_each (encode_place data) (range (Z.of_nat m)) (cw0, 0) = Ok (cw, j) ∧
    len cw = len cw0 ∧
    j = Z.of_nat m - Z.log2_up (Z.of_nat m + 1) ∧
    extract (take m cw) = take (Z.to_nat j) data.
Proof.
  intros Hm Hroom. induction m as [|m IH].
  - exists cw0, 0. by split_and!.
  - destruct IH as (cw & j & Hrun & Hlen & Hj & Hex); [lia|].
    unfold range in *. rewrite seqZ_S, for_each_app, Hrun, Z.add_0_l. simpl.
    assert (m < length cw)%nat as Hin by (unfold len in *; lia).
    destruct (lookup_lt_is_Some_2 cw m Hin) as [y Hy].
    assert (len (take m cw) = Z.of_nat m) as Htake.
    { unfold len. rewrite length_take_le; lia. }
    pose proof (log2_up_step (Z.of_nat m) ltac:(lia)) as Hstep.
    pose proof (Z.log2_up_nonneg (Z.of_nat m + 1)) as Hlog.
    assert (Z.log2_up (Z.of_nat m + 1) ≤ Z.of_nat m) as Hlog_le.
    { pose proof (extract_length (take m cw)) as Hl.
      rewrite Htake in Hl. unfold len in Hl. lia. }
    rewrite Nat2Z.inj_succ.
    replace (Z.succ (Z.of_nat m) + 1) with (Z.of_nat m + 2) by lia.
    destruct (is_data_slot (Z.of_nat m)) eqn:Hdata.
    + assert (j + 1 ≤ len data) as Hroom_j.
      { pose proof (data_slots_mono (Z.of_nat m + 1)
                      (length cw0 - S m) ltac:(lia)) as Hmono.
        replace (Z.of_nat m + 1 + Z.of_nat (length cw0 - S m)) with (len cw0)
          in Hmono by (unfold len in *; lia).
        replace (Z.of_nat m + 1 + 1) with (Z.of_nat m + 2) in Hmono by lia.
        lia. }
      destruct (getitem_in_range data j) as (d & -> & Hd); [lia|]. simpl.
      rewrite setitem_in_range by (unfold len in *; lia). simpl.
      rewrite Nat2Z.id.
      exists (<[m := d]> cw), (j + 1). split_and!; [done| |lia|].
      * by rewrite len_insert.
      * rewrite (take_S_r _ _ d) by (by rewrite list_lookup_insert_eq).
        rewrite take_insert_ge by lia.
        rewrite extract_snoc, Htake, Hdata, Hex.
        replace (Z.to_nat (j + 1)) with (S (Z.to_nat j)) by lia.
        by rewrite (take_S_r _ _ d).
    + exists cw, j. split_and!; [done|done|lia|].
      rewrite (take_S_r _ _ y) by done.
      by rewrite extract_snoc, Htake, Hdata, app_nil_r.
Qed.

Lemma encode_set_parity_ok cw p :
  0 ≤ p → 2 ^ p - 1 < len cw →
  ∃ x, encode_set_parity cw p = Ok (<[Z.to_nat (2 ^ p - 1) := x]> cw).
Proof.
  intros Hp Hin. unfold encode_set_parity.
  destruct (parity_nonneg_index cw p Hp) as (x & -> & _). simpl.
  rewrite lshift_1_nonneg by done. simpl.
  pose proof (Z.pow_pos_nonneg 2 p).
  rewrite setitem_in_range by lia. by exists x.
Qed.

(** The second loop writes parity slots only. *)
Lemma encode_set_parity_keeps_data cw (ps : list Z) :
  (∀ p, p ∈ ps → 0 ≤ p ∧ 2 ^ p - 1 < len cw) →
  ∃ cw', for_each encode_set_parity ps cw = Ok cw' ∧
         len cw' = len cw ∧ extract cw' = extract cw.
Proof.
  revert cw. induction ps as [|p ps IH]; intros cw Hps; simpl.
  - by exists cw.
  - destruct (Hps p) as [Hp Hin]; [left|].
    destruct (encode_set_parity_ok cw p Hp Hin) as (x & ->). simpl.
    destruct (IH (<[Z.to_nat (2 ^ p - 1) := x]> cw)) as (cw' & Hrun & Hlen & Hex).
    { intros q Hq. rewrite len_insert. apply Hps. by right. }
    exists cw'. split_and!; [done| |].
    + by rewrite Hlen, len_insert.
    + by rewrite Hex, extract_insert_parity_slot.
Qed.

Lemma min_paritybits_log2_up k r :
  0 ≤ k → is_min_paritybits k r → Z.log2_up (k + r + 1) = r.
Proof.
  intros Hk (Hr & Hfit & Hmin). destruct (decide (r = 0)) as [->|Hne].
  - simpl in Hfit. by replace (k + 0 + 1) with 1 by lia.
  - apply Z.log2_up_unique; [lia|]. split; [|done].
    pose proof (Hmin (r - 1) ltac:(lia)).
    replace (Z.pred r) with (r - 1) by lia. lia.
Qed.

(** X19: run with the parity count Hamming's rule prescribes for the
    data length, the body of [encode] (all of it after the call to
    [num_paritybits]) raises nothing and returns a list of [k + r]
    elements whose data slots hold the data, in order: extracting them
    the way [decode] does gives the data back. *)
Theorem encode_body_places_data data r :
  is_min_paritybits (len data) r →
  ∃ c, encode_body data r = Ok c ∧ len c = len data + r ∧ extract c = data.
Proof.
  intros Hmin.
  assert (0 ≤ len data) as Hk by (unfold len; lia).
  pose proof (min_paritybits_log2_up _ _ Hk Hmin) as Hlog.
  destruct Hmin as (Hr & _ & _).
  unfold encode_body. simpl. remember (len data + r) as n eqn:Hn.
  assert (len (repeat_list 0 n) = n) as Hzeros.
  { unfold len, repeat_list. rewrite length_replicate. lia. }
  destruct (encode_place_prefix data (repeat_list 0 n) (Z.to_nat n))
    as (cw & j & Hrun & Hlen & Hj & Hex).
  { rewrite Hzeros. lia. }
  { rewrite Hzeros, Hlog. lia. }
  rewrite Z2Nat.id in Hrun, Hj by lia. rewrite Hrun. simpl.
  rewrite Hzeros in Hlen.
  destruct (encode_set_parity_keeps_data cw (range r))
    as (c & Hrun2 & Hlen2 & Hex2).
  { intros p Hp%elem_of_range. split; [lia|].
    apply below_parity_count; [lia|]. rewrite Hlen, Hlog. lia. }
  exists c. split_and!; [done|lia|].
  rewrite Hex2. rewrite take_ge in Hex by (unfold len in *; lia).
  rewrite Hex. apply take_ge. rewrite Hlog in Hj. unfold len in *. lia.
Qed.

Lemma encode_body_places_data_witness :
  is_min_paritybits (len [1;0;1;1]) 3 ∧
  ∃ c, encode_body [1;0;1;1] 3 = Ok c ∧ len c = len [1;0;1;1] + 3 ∧
       extract c = [1;0;1;1].
Proof.
  assert (is_min_paritybits (len [1;0;1;1]) 3) as Hmin.
  { split; [lia|]. split; [vm_compute; discriminate|].
    intros r' Hr'.
    assert (r' = 0 ∨ r' = 1 ∨ r' = 2) as Hcases by lia.
    destruct Hcases as [-> | [-> | ->]]; reflexivity. }
  split; [exact Hmin|].
  apply (encode_body_places_data [1;0;1;1] 3). exact Hmin.
Defined.

(** X20: encoder and decoder agree on the parity count: for a list of
    [k + r] elements, [r] being the count Hamming's rule prescribes for
    [k] data bits, the loop of [decode] finds the same [r]. *)
Theorem decode_r_matches_rule cw k r :
  0 ≤ k → is_min_paritybits k r → len cw = k + r → decode_r cw = Ok r.
Proof.
  intros Hk Hmin Hlen.
  by rewrite decode_r_closed, Hlen, (min_paritybits_log2_up k r).
Qed.

Lemma decode_r_matches_rule_witness :
  0 ≤ 4 ∧ is_min_paritybits 4 3 ∧ len [1;0;1;0;0;1;1] = 4 + 3 ∧
  decode_r [1;0;1;0;0;1;1] = Ok 3.
Proof.
  assert (is_min_paritybits 4 3) as Hmin.
  { split; [lia|]. split; [vm_compute; discriminate|].
    intros r' Hr'.
    assert (r' = 0 ∨ r' = 1 ∨ r' = 2) as Hcases by lia.
    destruct Hcases as [-> | [-> | ->]]; reflexivity. }
  split; [lia|]. split; [exact Hmin|]. split; [reflexivity|].
  apply (decode_r_matches_rule [1;0;1;0;0;1;1] 4 3); [lia | exact Hmin | reflexivity].
Defined.
End placement.

(** ** The store after [decode] *)

Section final_store.
Implicit Types (cw : list Z) (h : heap) (arg : positive).

(** X21: the store [decode] leaves behind is the store it was given plus
    two new lists: the working copy, holding the codeword after the
    correction step, and the data list it returns.  Nothing else is
    written, nothing is removed. *)
Theorem decode_heap_final_store h arg cw :
  h !! arg = Some cw →
  ∃ s cw' clean,
    decode_syndrome cw = Ok s ∧
    decode_correct cw s = Ok (cw', clean) ∧
    let copy := fresh (dom h) in
    let h1 := <[copy := cw']> h in
    let data := fresh (dom h1) in
    decode_heap arg h = Ok (data, clean, <[data := extract cw']> h1).
Proof.
  intros Harg.
  destruct (decode_syndrome_total cw) as (s & Hs & Hpos).
  destruct (decode_correct_total cw s Hpos) as (cw' & b & Hcorr).
  exists s, cw', b. split_and!; [done..|]. simpl.
  unfold decode_heap, alloc. rewrite (lookup_total_correct h arg cw Harg).
  rewrite lookup_total_insert_eq.
  unfold decode_syndrome in Hs.
  destruct (decode_r cw) as [r| |]; [|done..]. simpl in *. rewrite Hs. simpl.
  unfold decode_correct in Hcorr.
  destruct (truthy s && (s <=? len cw)).
  - destruct (ixor_item cw (s - 1) 1) as [w| |]; [|done..]. simpl in *.
    injection Hcorr as <- <-.
    by rewrite insert_insert_eq, lookup_total_insert_eq.
  - injection Hcorr as <- <-. simpl. by rewrite lookup_total_insert_eq.
Qed.

Lemma decode_heap_final_store_witness :
  ({[1%positive := [1]]} : heap) !! 1%positive = Some [1] ∧
  ∃ s cw' clean,
    decode_syndrome [1] = Ok s ∧
    decode_correct [1] s = Ok (cw', clean) ∧
    let copy := fresh (dom ({[1%positive := [1]]} : heap)) in
    let h1 := <[copy := cw']> ({[1%positive := [1]]} : heap) in
    let data := fresh (dom h1) in
    decode_heap 1 {[1%positive := [1]]}
    = Ok (data, clean, <[data := extract cw']> h1).
Proof.
  split; [reflexivity|].
  apply (decode_heap_final_store {[1%positive := [1]]} 1 [1]). reflexivity.
Defined.
End final_store.
